(** * The social-sentiment streaming subscriber

    A shallow embedding of
    [python/MessagesProxy/SubscribeSocialSentiment/client.py]: the
    straight-line script [main] that loads a certificate, opens a secured
    gRPC channel, creates the [MessagesProxyStub], issues the
    response-streaming call [SubscribeSocialSentiment] and prints two fields
    of every record it receives.

    The script has no data structure of its own: everything it does is a
    call into a collaborator (the file system, the [grpc] package, the
    generated stub, [print]) and the order of these calls.  The embedding is
    therefore a small-step machine over the control points of [main]; every
    step performs the calls of one source line against a [World] that says
    what the collaborators answer, and appends the effects to a trace.

    The machine of [main] starts where line 30 calls [main()].  The
    module-level statements around it (the path appended at line 1, the
    imports of lines 3-6, the guard of line 29) are a second, outer machine,
    [script_step], which hands over to the machine of [main]; what the
    import system reads to load a module is an answer of the
    [Interpreter].  Writing to standard output is taken to succeed. *)

From Stdlib Require Import String Ascii List ZArith Arith Bool Lia.
Import ListNotations.

Local Open Scope string_scope.
Local Open Scope list_scope.

(** ** Constants of the module (lines 8-9) *)

Definition SERVER_ADDRESS : string := "SERVER".
Definition PATH_TO_CERT_FILE : string := "./cert.pem".

(** ** Values handed around by the script *)

(** What [open(path, 'rb').read()] returns. *)
Definition bytes : Type := list Byte.byte.

(** Modelled from the spec: the source names no exception class (it has no
    [try] and no [raise]); the four kinds are the error taxonomy of the
    specification, section 7. *)
Inductive Exc : Type :=
| FileError
| CredentialFormatError
| ConnectionError
| StreamError.

(** A Python call either returns a value or raises. *)
Inductive Result (A : Type) : Type :=
| Ok (a : A)
| Raise (e : Exc).
Arguments Ok {A} a.
Arguments Raise {A} e.

(** The object [grpc.ssl_channel_credentials] returns. *)
Record ChannelCredentials : Type := { root_certificates : bytes }.

(** The object [grpc.secure_channel] returns. *)
Record Channel : Type := { target : string; credentials : ChannelCredentials }.

(** The object [types_pb2_grpc.MessagesProxyStub(channel)] returns. *)
Record Stub : Type := { channel : Channel }.

(** ** Effects

    Every interaction of the process with something outside it.  The last
    two constructors are effects a Python program can have and that [main]
    never performs; they are there so that the frame property can say so. *)
Inductive Event : Type :=
| FileRead (path : string)                          (* open(path, 'rb').read() *)
| SslChannelCredentials (pem : bytes)               (* grpc.ssl_channel_credentials *)
| SecureChannel (addr : string) (creds : ChannelCredentials) (* grpc.secure_channel *)
| StubCreate (ch : Channel)                         (* MessagesProxyStub(channel) *)
| RpcCall (method : string) (stub : Stub)           (* stub.<method>(Empty()) *)
| StreamNext (pos : nat)                            (* next() on the response stream *)
| Stdout (text : string)                            (* print *)
| Stderr (text : string)                            (* the interpreter's traceback *)
| Exit (status : Z)                                 (* the process ends *)
| FileWrite (path : string)
| EnvRead (name : string).

Definition newline : string := String (ascii_of_nat 10) EmptyString.

Definition exc_name (e : Exc) : string :=
  match e with
  | FileError => "FileError"
  | CredentialFormatError => "CredentialFormatError"
  | ConnectionError => "ConnectionError"
  | StreamError => "StreamError"
  end.

(** What the interpreter writes to standard error for an exception nobody
    caught (the frames of the real traceback are left out). *)
Definition traceback (e : Exc) : string :=
  ("Traceback (most recent call last):" ++ newline ++ exc_name e ++ newline)%string.

Fixpoint stdout_of (t : list Event) : list string :=
  match t with
  | [] => []
  | Stdout text :: t' => text :: stdout_of t'
  | _ :: t' => stdout_of t'
  end.

Fixpoint stderr_of (t : list Event) : list string :=
  match t with
  | [] => []
  | Stderr text :: t' => text :: stderr_of t'
  | _ :: t' => stderr_of t'
  end.

Definition is_file_read (e : Event) : bool :=
  match e with FileRead _ => true | _ => false end.
Definition is_secure_channel (e : Event) : bool :=
  match e with SecureChannel _ _ => true | _ => false end.
Definition is_stub_create (e : Event) : bool :=
  match e with StubCreate _ => true | _ => false end.
Definition is_rpc_call (e : Event) : bool :=
  match e with RpcCall _ _ => true | _ => false end.
Definition is_stream_next (e : Event) : bool :=
  match e with StreamNext _ => true | _ => false end.

(** How often an effect of some kind occurs in a trace. *)
Definition count (p : Event -> bool) (t : list Event) : nat :=
  length (filter p t).

(** The effects the specification allows: reading the certificate file,
    building the credentials, traffic on the channel, the two console
    streams and the end of the process. *)
Definition permitted (e : Event) : bool :=
  match e with
  | FileRead path => String.eqb path PATH_TO_CERT_FILE
  | FileWrite _ | EnvRead _ => false
  | _ => true
  end.

(** ** The process-level states of the specification (section 4.1) *)

Inductive Phase : Type :=
| Idle
| CredentialsLoaded
| ChannelOpen
| Subscribed
| Consuming
| Completed
| Failed.

Definition rank (p : Phase) : nat :=
  match p with
  | Idle => 0
  | CredentialsLoaded => 1
  | ChannelOpen => 2
  | Subscribed => 3
  | Consuming => 4
  | Completed => 5
  | Failed => 6
  end.

Definition terminal (p : Phase) : bool :=
  match p with Completed | Failed => true | _ => false end.

(** The transitions of the state machine: the five forward steps of the
    chain, the failure of a state that is not terminal, and staying where
    one is (in [ChannelOpen] while the stub is created, in [Consuming]
    between records, in a terminal state for ever). *)
Definition transition (p q : Phase) : bool :=
  match p, q with
  | Idle, CredentialsLoaded
  | CredentialsLoaded, ChannelOpen
  | ChannelOpen, Subscribed
  | Subscribed, Consuming
  | Consuming, Completed => true
  | ChannelOpen, ChannelOpen
  | Consuming, Consuming
  | Completed, Completed
  | Failed, Failed => true
  | (Idle | CredentialsLoaded | ChannelOpen | Subscribed | Consuming), Failed => true
  | _, _ => false
  end.

Section Subscriber.

(** The type of the field values of a record and Python's [str] on them
    ([print] calls it on each of its arguments). *)
Context {Value : Type} (str : Value -> string).

(** A message of the stream: the two fields the script reads and whatever
    else the schema defines. *)
Record SentimentRecord : Type := {
  id : Value;
  sentiment_avg : Value;
  other_fields : list (string * Value)
}.

(** What one [next()] on the response stream gives. *)
Inductive Pull : Type :=
| Item (candle : SentimentRecord)
| StopIteration
| Failure (e : Exc).

(** The response stream of a call: its answer to the [pos]-th [next()]. *)
Definition ResponseStream : Type := nat -> Pull.

(** What the collaborators of the script answer. *)
Record World : Type := {
  file_contents : string -> Result bytes;
  ssl_channel_credentials : bytes -> Result ChannelCredentials;
  secure_channel : string -> ChannelCredentials -> Result Channel;
  MessagesProxyStub : Channel -> Result Stub;
  SubscribeSocialSentiment : Stub -> Result ResponseStream
}.

(** Python's [print] of several objects, with the default separator and end. *)
Definition print (objects : list Value) : string :=
  (String.concat " " (map str objects) ++ newline)%string.

(** ** The control points of [main] *)

Inductive Control : Type :=
| AtCredentials                                    (* line 14 *)
| AtChannel (creds : ChannelCredentials)           (* line 17 *)
| AtStub (channel : Channel)                       (* line 20 *)
| AtCall (stub : Stub)                             (* line 23 *)
| AtFor (candle_stream : ResponseStream)           (* line 24, entering the loop *)
| AtNext (candle_stream : ResponseStream) (pos : nat)   (* line 24, next() *)
| AtPrint (candle_stream : ResponseStream) (pos : nat)
          (candle : SentimentRecord)               (* line 26 *)
| Returned                                         (* main() at line 30 returned *)
| Uncaught (e : Exc)                               (* an exception left main() *)
| Exited (e : option Exc).                         (* the process is gone *)

Record Config : Type := { control : Control; trace : list Event }.

Definition goto (c : Config) (k : Control) (evs : list Event) : Config :=
  {| control := k; trace := trace c ++ evs |}.

(** The continuation of a call: its value goes on, its exception leaves
    [main] (there is no handler anywhere in the script). *)
Definition after {A : Type} (r : Result A) (k : A -> Control) : Control :=
  match r with
  | Ok a => k a
  | Raise e => Uncaught e
  end.

Definition step (w : World) (c : Config) : Config :=
  match control c with
  | AtCredentials =>
      (* creds = grpc.ssl_channel_credentials(open(PATH_TO_CERT_FILE, 'rb').read()) *)
      match file_contents w PATH_TO_CERT_FILE with
      | Raise e => goto c (Uncaught e) [FileRead PATH_TO_CERT_FILE]
      | Ok pem =>
          goto c (after (ssl_channel_credentials w pem) AtChannel)
            [FileRead PATH_TO_CERT_FILE; SslChannelCredentials pem]
      end
  | AtChannel creds =>
      (* channel = grpc.secure_channel(SERVER_ADDRESS, creds) *)
      goto c (after (secure_channel w SERVER_ADDRESS creds) AtStub)
        [SecureChannel SERVER_ADDRESS creds]
  | AtStub ch =>
      (* stub = types_pb2_grpc.MessagesProxyStub(channel) *)
      goto c (after (MessagesProxyStub w ch) AtCall) [StubCreate ch]
  | AtCall stub =>
      (* candle_stream = stub.SubscribeSocialSentiment(empty_pb2.Empty()) *)
      goto c (after (SubscribeSocialSentiment w stub) AtFor)
        [RpcCall "SubscribeSocialSentiment" stub]
  | AtFor candle_stream =>
      (* for candle in candle_stream: the iterator of a stream is the stream *)
      goto c (AtNext candle_stream 0) []
  | AtNext candle_stream pos =>
      match candle_stream pos with
      | Item candle => goto c (AtPrint candle_stream (S pos) candle) [StreamNext pos]
      | StopIteration => goto c Returned [StreamNext pos]
      | Failure e => goto c (Uncaught e) [StreamNext pos]
      end
  | AtPrint candle_stream pos candle =>
      (* print(candle.id, candle.sentiment_avg) *)
      goto c (AtNext candle_stream pos)
        [Stdout (print [id candle; sentiment_avg candle])]
  | Returned => goto c (Exited None) [Exit 0]
  | Uncaught e => goto c (Exited (Some e)) [Stderr (traceback e); Exit 1]
  | Exited _ => c
  end.

Fixpoint steps (w : World) (n : nat) (c : Config) : Config :=
  match n with
  | O => c
  | S n' => steps w n' (step w c)
  end.

(** The process as the interpreter starts it: [__name__ == '__main__'], so
    line 30 calls [main()]. *)
Definition start : Config := {| control := AtCredentials; trace := [] |}.

(** The process after [n] steps. *)
Definition run (w : World) (n : nat) : Config := steps w n start.

Definition stdout (c : Config) : list string := stdout_of (trace c).
Definition stderr (c : Config) : list string := stderr_of (trace c).

Definition exit_status (c : Config) : option Z :=
  match control c with
  | Exited None => Some 0%Z
  | Exited (Some _) => Some 1%Z
  | _ => None
  end.

Definition phase (k : Control) : Phase :=
  match k with
  | AtCredentials => Idle
  | AtChannel _ => CredentialsLoaded
  | AtStub _ | AtCall _ => ChannelOpen
  | AtFor _ => Subscribed
  | AtNext _ _ | AtPrint _ _ _ => Consuming
  | Returned | Exited None => Completed
  | Uncaught _ | Exited (Some _) => Failed
  end.

(** The state of the specification's machine after [n] steps. *)
Definition phase_at (w : World) (n : nat) : Phase := phase (control (run w n)).

(** ** Vocabulary for the statements *)

(** Every call before the loop returns: the certificate file holds [pem],
    and the call returns the response stream [s]. *)
Definition opened (w : World) (pem : bytes) (creds : ChannelCredentials)
    (ch : Channel) (stub : Stub) (s : ResponseStream) : Prop :=
  file_contents w PATH_TO_CERT_FILE = Ok pem /\
  ssl_channel_credentials w pem = Ok creds /\
  secure_channel w SERVER_ADDRESS creds = Ok ch /\
  MessagesProxyStub w ch = Ok stub /\
  SubscribeSocialSentiment w stub = Ok s.

Definition subscribes (w : World) (s : ResponseStream) : Prop :=
  exists pem creds ch stub, opened w pem creds ch stub s.

(** The stream yields the records [rs], in this order, and then [fin]. *)
Definition delivers (s : ResponseStream) (rs : list SentimentRecord)
    (fin : Pull) : Prop :=
  (forall k r, nth_error rs k = Some r -> s k = Item r) /\
  s (length rs) = fin.

(** The stream of the run ends by the server closing it. *)
Definition closes_gracefully (w : World) : Prop :=
  exists s rs, subscribes w s /\ delivers s rs StopIteration.

(** Some call of the run raises [e]: the first one that does. *)
Inductive fails (w : World) (e : Exc) : Prop :=
| fails_file :
    file_contents w PATH_TO_CERT_FILE = Raise e -> fails w e
| fails_credentials pem :
    file_contents w PATH_TO_CERT_FILE = Ok pem ->
    ssl_channel_credentials w pem = Raise e -> fails w e
| fails_channel pem creds :
    file_contents w PATH_TO_CERT_FILE = Ok pem ->
    ssl_channel_credentials w pem = Ok creds ->
    secure_channel w SERVER_ADDRESS creds = Raise e -> fails w e
| fails_stub pem creds ch :
    file_contents w PATH_TO_CERT_FILE = Ok pem ->
    ssl_channel_credentials w pem = Ok creds ->
    secure_channel w SERVER_ADDRESS creds = Ok ch ->
    MessagesProxyStub w ch = Raise e -> fails w e
| fails_call pem creds ch stub :
    file_contents w PATH_TO_CERT_FILE = Ok pem ->
    ssl_channel_credentials w pem = Ok creds ->
    secure_channel w SERVER_ADDRESS creds = Ok ch ->
    MessagesProxyStub w ch = Ok stub ->
    SubscribeSocialSentiment w stub = Raise e -> fails w e
| fails_stream s rs :
    subscribes w s -> delivers s rs (Failure e) -> fails w e.

(** The line [print] writes for a record. *)
Definition line (candle : SentimentRecord) : string :=
  (str (id candle) ++ " " ++ str (sentiment_avg candle) ++ newline)%string.

(** The effects of the five calls before the loop. *)
Definition setup_events (pem : bytes) (creds : ChannelCredentials)
    (ch : Channel) (stub : Stub) : list Event :=
  [FileRead PATH_TO_CERT_FILE; SslChannelCredentials pem;
   SecureChannel SERVER_ADDRESS creds; StubCreate ch;
   RpcCall "SubscribeSocialSentiment" stub].

(** The effects of the loop on the records [rs], received from position
    [pos] on. *)
Fixpoint loop_events (pos : nat) (rs : list SentimentRecord) : list Event :=
  match rs with
  | [] => []
  | candle :: rs' =>
      StreamNext pos :: Stdout (line candle) :: loop_events (S pos) rs'
  end.

(** What the interpreter adds when [main()] is over: nothing but the exit
    after a return, the traceback and the exit after an exception. *)
Definition epilogue (oe : option Exc) : list Event :=
  match oe with
  | None => [Exit 0]
  | Some e => [Stderr (traceback e); Exit 1]
  end.

(** [Outcome w oe t]: in the world [w] the call [main()] performs the
    effects [t] and then returns ([oe = None]) or lets the exception [e]
    escape ([oe = Some e]).  One rule for each place where the script can
    end. *)
Inductive Outcome (w : World) : option Exc -> list Event -> Prop :=
| out_file e :
    file_contents w PATH_TO_CERT_FILE = Raise e ->
    Outcome w (Some e) [FileRead PATH_TO_CERT_FILE]
| out_credentials pem e :
    file_contents w PATH_TO_CERT_FILE = Ok pem ->
    ssl_channel_credentials w pem = Raise e ->
    Outcome w (Some e) [FileRead PATH_TO_CERT_FILE; SslChannelCredentials pem]
| out_channel pem creds e :
    file_contents w PATH_TO_CERT_FILE = Ok pem ->
    ssl_channel_credentials w pem = Ok creds ->
    secure_channel w SERVER_ADDRESS creds = Raise e ->
    Outcome w (Some e)
      [FileRead PATH_TO_CERT_FILE; SslChannelCredentials pem;
       SecureChannel SERVER_ADDRESS creds]
| out_stub pem creds ch e :
    file_contents w PATH_TO_CERT_FILE = Ok pem ->
    ssl_channel_credentials w pem = Ok creds ->
    secure_channel w SERVER_ADDRESS creds = Ok ch ->
    MessagesProxyStub w ch = Raise e ->
    Outcome w (Some e)
      [FileRead PATH_TO_CERT_FILE; SslChannelCredentials pem;
       SecureChannel SERVER_ADDRESS creds; StubCreate ch]
| out_call pem creds ch stub e :
    file_contents w PATH_TO_CERT_FILE = Ok pem ->
    ssl_channel_credentials w pem = Ok creds ->
    secure_channel w SERVER_ADDRESS creds = Ok ch ->
    MessagesProxyStub w ch = Ok stub ->
    SubscribeSocialSentiment w stub = Raise e ->
    Outcome w (Some e) (setup_events pem creds ch stub)
| out_stream_failure pem creds ch stub s rs e :
    opened w pem creds ch stub s ->
    delivers s rs (Failure e) ->
    Outcome w (Some e)
      (setup_events pem creds ch stub ++ loop_events 0 rs ++ [StreamNext (length rs)])
| out_close pem creds ch stub s rs :
    opened w pem creds ch stub s ->
    delivers s rs StopIteration ->
    Outcome w None
      (setup_events pem creds ch stub ++ loop_events 0 rs ++ [StreamNext (length rs)]).

(** No call of the script is made a second time. *)
Definition no_retry (t : list Event) : Prop :=
  count is_file_read t <= 1 /\ count is_secure_channel t <= 1 /\
  count is_stub_create t <= 1 /\ count is_rpc_call t <= 1.

(** ** The collaborators, as the specification describes them *)

(** Modelled from the spec: [open], [grpc.ssl_channel_credentials],
    [grpc.secure_channel] and the generated stub are not code of this
    repository.  Section 4.1 gives their contract: a certificate path that
    is missing or unreadable is a [FileError], bytes that are not a valid
    certificate (empty bytes are not) are a [CredentialFormatError], an
    address whose resolution or handshake fails is a [ConnectionError];
    creating the stub and issuing the call return at once. *)
Record Deployment : Type := {
  disk : string -> option bytes;
  is_certificate : bytes -> bool;
  reachable : string -> bool;
  feed : ResponseStream
}.

Definition valid_certificate (d : Deployment) (pem : bytes) : bool :=
  match pem with
  | [] => false
  | _ :: _ => is_certificate d pem
  end.

(** Modelled from the spec: [loadCredentials(path)] of section 4.1. *)
Definition loadCredentials (d : Deployment) (path : string)
    : Result ChannelCredentials :=
  match disk d path with
  | None => Raise FileError
  | Some pem =>
      if valid_certificate d pem then Ok {| root_certificates := pem |}
      else Raise CredentialFormatError
  end.

(** Modelled from the spec: [openChannel(address, credentials)] of
    section 4.1. *)
Definition openChannel (d : Deployment) (address : string)
    (creds : ChannelCredentials) : Result Channel :=
  if reachable d address then Ok {| target := address; credentials := creds |}
  else Raise ConnectionError.

(** Modelled from the spec: the answers of the collaborators in a
    deployment; line 14 of the script is [loadCredentials] in two calls. *)
Definition world_of (d : Deployment) : World := {|
  file_contents path :=
    match disk d path with
    | None => Raise FileError
    | Some pem => Ok pem
    end;
  ssl_channel_credentials pem :=
    if valid_certificate d pem then Ok {| root_certificates := pem |}
    else Raise CredentialFormatError;
  secure_channel := openChannel d;
  MessagesProxyStub ch := Ok {| channel := ch |};
  SubscribeSocialSentiment _ := Ok (feed d)
|}.

(** A stream that yields the records of a list and then ends with [fin]. *)
Definition stream_of (rs : list SentimentRecord) (fin : Pull) : ResponseStream :=
  fun pos =>
    match nth_error rs pos with
    | Some candle => Item candle
    | None => fin
    end.

End Subscriber.

Arguments SentimentRecord : clear implicits.
Arguments Pull : clear implicits.
Arguments ResponseStream : clear implicits.
Arguments World : clear implicits.
Arguments Control : clear implicits.
Arguments Config : clear implicits.
Arguments Deployment : clear implicits.
Arguments start : clear implicits.

(** ** Vocabulary for the properties of the whole run *)

(** In the trace [t] every effect of kind [q] comes after some effect of
    kind [p]. *)
Definition before (p q : Event -> bool) (t : list Event) : Prop :=
  forall t1 e t2, t = t1 ++ e :: t2 -> q e = true ->
    exists e', In e' t1 /\ p e' = true.

(** The same, decided by one pass over the trace; [seen] says whether an
    effect of kind [p] has occurred. *)
Fixpoint beforeb (p q : Event -> bool) (seen : bool) (t : list Event) : bool :=
  match t with
  | [] => true
  | e :: t' => (if q e then seen else true) && beforeb p q (seen || p e) t'
  end.

Definition is_ssl_credentials (e : Event) : bool :=
  match e with SslChannelCredentials _ => true | _ => false end.

(** The positions of the stream that were pulled, in the order of the
    pulls. *)
Fixpoint pulled (t : list Event) : list nat :=
  match t with
  | [] => []
  | StreamNext pos :: t' => pos :: pulled t'
  | _ :: t' => pulled t'
  end.

(** The text holds a space. *)
Fixpoint has_space (s : string) : bool :=
  match s with
  | EmptyString => false
  | String a s' => Ascii.eqb a " "%char || has_space s'
  end.

Section Reachable.

Context {Value : Type} (str : Value -> string).

(** The first pulls of the stream are the records [rs]. *)
Definition yields (s : ResponseStream Value) (rs : list (SentimentRecord Value)) : Prop :=
  forall k candle, nth_error rs k = Some candle -> s k = Item candle.

(** The stream never ends and never fails. *)
Definition endless (s : ResponseStream Value) : Prop :=
  forall k, exists candle, s k = Item candle.

(** The states a run can be in, each with the world that leads there and
    the trace it has then: one rule for each control point of [main]. *)
Inductive Reached (w : World Value) : Config Value -> Prop :=
| reached_start :
    Reached w (start Value)
| reached_channel pem creds :
    file_contents w PATH_TO_CERT_FILE = Ok pem ->
    ssl_channel_credentials w pem = Ok creds ->
    Reached w {| control := AtChannel creds;
                 trace := [FileRead PATH_TO_CERT_FILE; SslChannelCredentials pem] |}
| reached_stub pem creds ch :
    file_contents w PATH_TO_CERT_FILE = Ok pem ->
    ssl_channel_credentials w pem = Ok creds ->
    secure_channel w SERVER_ADDRESS creds = Ok ch ->
    Reached w {| control := AtStub ch;
                 trace := [FileRead PATH_TO_CERT_FILE; SslChannelCredentials pem;
                           SecureChannel SERVER_ADDRESS creds] |}
| reached_call pem creds ch stub :
    file_contents w PATH_TO_CERT_FILE = Ok pem ->
    ssl_channel_credentials w pem = Ok creds ->
    secure_channel w SERVER_ADDRESS creds = Ok ch ->
    MessagesProxyStub w ch = Ok stub ->
    Reached w {| control := AtCall stub;
                 trace := [FileRead PATH_TO_CERT_FILE; SslChannelCredentials pem;
                           SecureChannel SERVER_ADDRESS creds; StubCreate ch] |}
| reached_for pem creds ch stub s :
    opened w pem creds ch stub s ->
    Reached w {| control := AtFor s; trace := setup_events pem creds ch stub |}
| reached_next pem creds ch stub s rs :
    opened w pem creds ch stub s ->
    yields s rs ->
    Reached w {| control := AtNext s (length rs);
                 trace := setup_events pem creds ch stub ++ loop_events str 0 rs |}
| reached_print pem creds ch stub s rs candle :
    opened w pem creds ch stub s ->
    yields s rs ->
    s (length rs) = Item candle ->
    Reached w {| control := AtPrint s (S (length rs)) candle;
                 trace := setup_events pem creds ch stub ++ loop_events str 0 rs
                          ++ [StreamNext (length rs)] |}
| reached_return t :
    Outcome str w None t ->
    Reached w {| control := Returned; trace := t |}
| reached_uncaught e t :
    Outcome str w (Some e) t ->
    Reached w {| control := Uncaught e; trace := t |}
| reached_exit oe t :
    Outcome str w oe t ->
    Reached w {| control := Exited oe; trace := t ++ epilogue oe |}.

(** The arguments of a call are what the calls before it returned: the
    bytes of the certificate file, the credentials built from them, the
    channel opened with these to the fixed address, the stub created on
    that channel. *)
Definition justified (w : World Value) (ev : Event) : Prop :=
  match ev with
  | FileRead path => path = PATH_TO_CERT_FILE
  | SslChannelCredentials pem => file_contents w PATH_TO_CERT_FILE = Ok pem
  | SecureChannel addr creds =>
      addr = SERVER_ADDRESS /\
      exists pem,
        file_contents w PATH_TO_CERT_FILE = Ok pem /\
        ssl_channel_credentials w pem = Ok creds
  | StubCreate ch =>
      exists pem creds,
        file_contents w PATH_TO_CERT_FILE = Ok pem /\
        ssl_channel_credentials w pem = Ok creds /\
        secure_channel w SERVER_ADDRESS creds = Ok ch
  | RpcCall method stub =>
      method = "SubscribeSocialSentiment" /\
      exists pem creds ch,
        file_contents w PATH_TO_CERT_FILE = Ok pem /\
        ssl_channel_credentials w pem = Ok creds /\
        secure_channel w SERVER_ADDRESS creds = Ok ch /\
        MessagesProxyStub w ch = Ok stub
  | _ => True
  end.

(** Two worlds give the same answer to every call the script makes in the
    first of them. *)
Definition same_answers (w1 w2 : World Value) : Prop :=
  file_contents w1 PATH_TO_CERT_FILE = file_contents w2 PATH_TO_CERT_FILE /\
  (forall pem,
     file_contents w1 PATH_TO_CERT_FILE = Ok pem ->
     ssl_channel_credentials w1 pem = ssl_channel_credentials w2 pem) /\
  (forall pem creds,
     file_contents w1 PATH_TO_CERT_FILE = Ok pem ->
     ssl_channel_credentials w1 pem = Ok creds ->
     secure_channel w1 SERVER_ADDRESS creds = secure_channel w2 SERVER_ADDRESS creds) /\
  (forall pem creds ch,
     file_contents w1 PATH_TO_CERT_FILE = Ok pem ->
     ssl_channel_credentials w1 pem = Ok creds ->
     secure_channel w1 SERVER_ADDRESS creds = Ok ch ->
     MessagesProxyStub w1 ch = MessagesProxyStub w2 ch) /\
  (forall pem creds ch stub,
     file_contents w1 PATH_TO_CERT_FILE = Ok pem ->
     ssl_channel_credentials w1 pem = Ok creds ->
     secure_channel w1 SERVER_ADDRESS creds = Ok ch ->
     MessagesProxyStub w1 ch = Ok stub ->
     SubscribeSocialSentiment w1 stub = SubscribeSocialSentiment w2 stub).

End Reachable.

(** ** The module-level statements (lines 1-9 and 29-30) *)

(** The interpreter that runs the file: the module search path it starts
    with, the name it gives the module ([__main__] when the file is run as
    a script), and its import system: the files it reads to load a module
    it finds through a search path, or nothing when it finds none. *)
Record Interpreter : Type := {
  initial_sys_path : list string;
  module_name : string;
  load_module : list string -> string -> option (list string)
}.



(** What the interpreter writes to standard error when an import finds no
    module. *)
Definition import_traceback (name : string) : string :=
  ("Traceback (most recent call last):" ++ newline
   ++ "ModuleNotFoundError: " ++ name ++ newline)%string.

Section Script.

Context {Value : Type} (str : Value -> string).

Inductive ScriptControl : Type :=
| AtPathAppend                    (* line 1: sys.path.append('../../') *)
| AtImportGrpc                    (* line 3: import grpc *)
| AtImportStub                    (* line 5: import types_pb2_grpc *)
| AtImportEmpty                   (* line 6: from google.protobuf import empty_pb2 *)
| AtGuard                         (* lines 8-12 bind names; line 29 *)
| InMain (c : Config Value)       (* line 30: main() *)
| Imported                        (* the module body is over, main() was not called *)
| ImportFailed (name : string)    (* an import found no module *)
| ImportExited.                   (* the process is gone after that *)

(** The state of the whole process: the module search path, the control
    point, and the effects of the module-level statements so far (those of
    [main] are in its own configuration). *)
Record Script : Type := {
  sys_path : list string;
  at_line : ScriptControl;
  prelude : list Event
}.

(** An import statement: the files of the module are read, or the import
    fails. *)
Definition import_module (itp : Interpreter) (sc : Script) (name : string)
    (next : ScriptControl) : Script :=
  match load_module itp (sys_path sc) name with
  | Some files =>
      {| sys_path := sys_path sc; at_line := next;
         prelude := prelude sc ++ map FileRead files |}
  | None =>
      {| sys_path := sys_path sc; at_line := ImportFailed name;
         prelude := prelude sc |}
  end.

Definition script_step (itp : Interpreter) (w : World Value) (sc : Script) : Script :=
  match at_line sc with
  | AtPathAppend =>
      {| sys_path := sys_path sc ++ ["../../"]; at_line := AtImportGrpc;
         prelude := prelude sc |}
  | AtImportGrpc => import_module itp sc "grpc" AtImportStub
  | AtImportStub => import_module itp sc "types_pb2_grpc" AtImportEmpty
  | AtImportEmpty => import_module itp sc "google.protobuf.empty_pb2" AtGuard
  | AtGuard =>
      (* if __name__ == '__main__': main() *)
      {| sys_path := sys_path sc;
         at_line := if String.eqb (module_name itp) "__main__"
                    then InMain (start Value) else Imported;
         prelude := prelude sc |}
  | InMain c =>
      {| sys_path := sys_path sc; at_line := InMain (step str w c);
         prelude := prelude sc |}
  | Imported => sc
  | ImportFailed name =>
      {| sys_path := sys_path sc; at_line := ImportExited;
         prelude := prelude sc ++ [Stderr (import_traceback name); Exit 1] |}
  | ImportExited => sc
  end.

Fixpoint script_steps (itp : Interpreter) (w : World Value) (n : nat)
    (sc : Script) : Script :=
  match n with
  | O => sc
  | S n' => script_steps itp w n' (script_step itp w sc)
  end.

Definition script_start (itp : Interpreter) : Script :=
  {| sys_path := initial_sys_path itp; at_line := AtPathAppend; prelude := [] |}.

(** The whole process after [n] steps. *)
Definition script_run (itp : Interpreter) (w : World Value) (n : nat) : Script :=
  script_steps itp w n (script_start itp).

(** Every effect of the process so far. *)
Definition script_trace (sc : Script) : list Event :=
  prelude sc ++
  match at_line sc with
  | InMain c => trace c
  | _ => []
  end.


End Script.

Arguments ScriptControl : clear implicits.
Arguments Script : clear implicits.
Arguments script_start : clear implicits.

(** ** The scenario of the specification, section 8

    A 200-byte certificate, the server streams two records and closes.
    The field values are given by the text [str] has for them. *)

Definition shown (v : string) : string := v.

Definition AAPL : SentimentRecord string :=
  {| id := "AAPL"; sentiment_avg := "0.42"; other_fields := [] |}.
Definition MSFT : SentimentRecord string :=
  {| id := "MSFT"; sentiment_avg := "-0.15"; other_fields := [] |}.

(** The same two records as another schema version would carry them. *)
Definition AAPL' : SentimentRecord string :=
  {| id := "AAPL"; sentiment_avg := "0.42"; other_fields := [("volume", "7")] |}.
Definition MSFT' : SentimentRecord string :=
  {| id := "MSFT"; sentiment_avg := "-0.15"; other_fields := [("volume", "9")] |}.

Definition certificate : bytes := repeat Byte.x2d 200.

Definition scenario (rs : list (SentimentRecord string)) (fin : Pull string)
    : Deployment string := {|
  disk path := if String.eqb path PATH_TO_CERT_FILE then Some certificate else None;
  is_certificate _ := true;
  reachable _ := true;
  feed := stream_of rs fin
|}.

(** Another site: any path holds a one-byte certificate. *)
Definition other_site (rs : list (SentimentRecord string)) (fin : Pull string)
    : Deployment string := {|
  disk _ := Some [Byte.x41];
  is_certificate _ := true;
  reachable _ := true;
  feed := stream_of rs fin
|}.

(** The scenario with no certificate file, with an empty one, and with a
    server that cannot be reached. *)
Definition no_certificate : Deployment string := {|
  disk _ := None;
  is_certificate _ := true;
  reachable _ := true;
  feed := stream_of [AAPL; MSFT] StopIteration
|}.

Definition empty_certificate : Deployment string := {|
  disk _ := Some [];
  is_certificate _ := true;
  reachable _ := true;
  feed := stream_of [AAPL; MSFT] StopIteration
|}.

Definition unreachable_server : Deployment string := {|
  disk _ := Some certificate;
  is_certificate _ := true;
  reachable _ := false;
  feed := stream_of [AAPL; MSFT] StopIteration
|}.

(** The scenario with the same certificate at every path and a server
    that answers at the fixed address only. *)
Definition crowded_disk (rs : list (SentimentRecord string)) (fin : Pull string)
    : Deployment string := {|
  disk _ := Some certificate;
  is_certificate _ := true;
  reachable addr := String.eqb addr SERVER_ADDRESS;
  feed := stream_of rs fin
|}.

(** A feed that never ends: the two records in turn. *)
Definition ticker : ResponseStream string :=
  fun pos => if Nat.even pos then Item AAPL else Item MSFT.

Definition endless_feed : Deployment string := {|
  disk path := if String.eqb path PATH_TO_CERT_FILE then Some certificate else None;
  is_certificate _ := true;
  reachable _ := true;
  feed := ticker
|}.

(** An interpreter that runs the file as a script, with the generated stub
    module two directories up and the packages installed. *)
Definition cpython : Interpreter := {|
  initial_sys_path := ["."; "site-packages"];
  module_name := "__main__";
  load_module path name :=
    if String.eqb name "types_pb2_grpc" then
      if existsb (String.eqb "../../") path
      then Some ["../../types_pb2_grpc.py"] else None
    else Some [("site-packages/" ++ name)%string]
|}.

(** * Properties *)

Section SubscriberFacts.

Context {Value : Type} (str : Value -> string).

Implicit Types (w : World Value) (c : Config Value) (s : ResponseStream Value).
Implicit Types (rs : list (SentimentRecord Value)) (candle : SentimentRecord Value).
Implicit Types (t : list Event) (e : Exc).

(** ** Running the machine *)

Lemma steps_add w n m c :
  steps str w (n + m) c = steps str w m (steps str w n c).
Proof.
  revert c. induction n as [|n IH]; intros c; simpl.
  - reflexivity.
  - apply IH.
Qed.

Lemma steps_succ w n c :
  steps str w (S n) c = step str w (steps str w n c).
Proof.
  replace (S n) with (n + 1) by lia.
  rewrite steps_add. reflexivity.
Qed.

Lemma step_exited w c oe :
  control c = Exited oe -> step str w c = c.
Proof.
  intros H. unfold step. rewrite H. reflexivity.
Qed.

Lemma steps_exited w n c oe :
  control c = Exited oe -> steps str w n c = c.
Proof.
  intros H. induction n as [|n IH]; simpl.
  - reflexivity.
  - rewrite (step_exited w c oe H). exact IH.
Qed.

(** Once the process has exited nothing changes any more. *)
Lemma run_settled w n oe :
  control (run str w n) = Exited oe ->
  forall m, n <= m -> run str w m = run str w n.
Proof.
  intros H m Hm.
  replace m with (n + (m - n)) by lia.
  unfold run in *. rewrite steps_add.
  apply steps_exited with oe. exact H.
Qed.

(** ** Traces only grow *)

Lemma step_extends w c :
  exists evs, trace (step str w c) = trace c ++ evs.
Proof.
  unfold step.
  destruct (control c) as [ | creds | ch | stub | s | s pos | s pos candle | | e | oe ].
  - destruct (file_contents w PATH_TO_CERT_FILE); eexists; reflexivity.
  - eexists; reflexivity.
  - eexists; reflexivity.
  - eexists; reflexivity.
  - eexists; reflexivity.
  - destruct (s pos); eexists; reflexivity.
  - eexists; reflexivity.
  - eexists; reflexivity.
  - eexists; reflexivity.
  - exists []. symmetry. apply app_nil_r.
Qed.

Lemma steps_extends w n c :
  exists evs, trace (steps str w n c) = trace c ++ evs.
Proof.
  revert c. induction n as [|n IH]; intros c; simpl.
  - exists []. symmetry. apply app_nil_r.
  - destruct (IH (step str w c)) as [evs2 H2].
    destruct (step_extends w c) as [evs1 H1].
    exists (evs1 ++ evs2). rewrite H2, H1. symmetry. apply app_assoc.
Qed.

Lemma run_extends w n m :
  n <= m -> exists evs, trace (run str w m) = trace (run str w n) ++ evs.
Proof.
  intros Hm. replace m with (n + (m - n)) by lia.
  unfold run. rewrite steps_add. apply steps_extends.
Qed.

Lemma count_app p t1 t2 : count p (t1 ++ t2) = count p t1 + count p t2.
Proof.
  unfold count. rewrite filter_app. apply length_app.
Qed.

(** What does not occur in a later trace did not occur before. *)
Lemma count_zero_earlier w p n m :
  n <= m -> count p (trace (run str w m)) = 0 -> count p (trace (run str w n)) = 0.
Proof.
  intros Hm H. destruct (run_extends w n m Hm) as [evs E].
  rewrite E, count_app in H. lia.
Qed.

(** ** The loop *)

Lemma string_append_assoc (a b d : string) :
  ((a ++ b) ++ d = a ++ (b ++ d))%string.
Proof.
  induction a as [|x a IH]; simpl.
  - reflexivity.
  - rewrite IH. reflexivity.
Qed.

(** The text [print] writes for the two fields is the line of the record:
    identifier, one space, sentiment average, end of line. *)
Lemma print_line candle :
  print str [id candle; sentiment_avg candle] = line str candle.
Proof.
  unfold print, line. simpl.
  rewrite !string_append_assoc. reflexivity.
Qed.

Lemma loop_runs w s rs :
  forall pos c,
    control c = AtNext s pos ->
    (forall k candle, nth_error rs k = Some candle -> s (pos + k) = Item candle) ->
    steps str w (2 * length rs) c =
    {| control := AtNext s (pos + length rs);
       trace := trace c ++ loop_events str pos rs |}.
Proof.
  induction rs as [|candle rs IH]; intros pos c Hc Hs.
  - simpl. destruct c as [k t]. simpl in *. subst k.
    rewrite Nat.add_0_r, app_nil_r. reflexivity.
  - replace (2 * length (candle :: rs)) with (S (S (2 * length rs)))
      by (simpl; lia).
    assert (H0 : s pos = Item candle).
    { rewrite <- (Nat.add_0_r pos). apply Hs. reflexivity. }
    simpl steps.
    assert (E1 : step str w c =
                 goto c (AtPrint s (S pos) candle) [StreamNext pos]).
    { unfold step. rewrite Hc, H0. reflexivity. }
    rewrite E1.
    assert (E2 : step str w (goto c (AtPrint s (S pos) candle) [StreamNext pos]) =
                 {| control := AtNext s (S pos);
                    trace := trace c ++ [StreamNext pos; Stdout (line str candle)] |}).
    { unfold step, goto. simpl. rewrite print_line, <- app_assoc. reflexivity. }
    rewrite E2.
    rewrite (IH (S pos)).
    + simpl. rewrite <- app_assoc. simpl.
      replace (S (pos + length rs)) with (pos + S (length rs)) by lia.
      reflexivity.
    + reflexivity.
    + intros k r Hk. replace (S pos + k) with (pos + S k) by lia.
      apply Hs. exact Hk.
Qed.

(** ** From the start to the loop *)

Lemma setup_runs w pem creds ch stub s :
  opened w pem creds ch stub s ->
  run str w 5 =
  {| control := AtNext s 0; trace := setup_events pem creds ch stub |}.
Proof.
  intros (H1 & H2 & H3 & H4 & H5).
  unfold run, start. simpl steps.
  unfold step at 5. simpl. rewrite H1, H2. simpl.
  unfold step at 4. simpl. rewrite H3. simpl.
  unfold step at 3. simpl. rewrite H4. simpl.
  unfold step at 2. simpl. rewrite H5. simpl.
  reflexivity.
Qed.

(** While the stream has records the process is in the loop. *)
Lemma loop_reached w pem creds ch stub s rs :
  opened w pem creds ch stub s ->
  (forall k candle, nth_error rs k = Some candle -> s k = Item candle) ->
  run str w (5 + 2 * length rs) =
  {| control := AtNext s (length rs);
     trace := setup_events pem creds ch stub ++ loop_events str 0 rs |}.
Proof.
  intros Ho Hs. unfold run. rewrite steps_add.
  fold (run str w 5). rewrite (setup_runs w pem creds ch stub s Ho).
  rewrite (loop_runs w s rs 0); [reflexivity | reflexivity | exact Hs].
Qed.

(** ** Every way the script can end *)

Lemma outcome_run w oe t :
  Outcome str w oe t ->
  exists n, forall m, n <= m ->
    run str w m = {| control := Exited oe; trace := t ++ epilogue oe |}.
Proof.
  intros H.
  assert (G : forall n, run str w n = {| control := Exited oe; trace := t ++ epilogue oe |} ->
              exists n, forall m, n <= m ->
                run str w m = {| control := Exited oe; trace := t ++ epilogue oe |}).
  { intros n E. exists n. intros m Hm.
    rewrite (run_settled w n oe) by (rewrite ?E; auto). exact E. }
  destruct H as [ e H1 | pem e H1 H2 | pem creds e H1 H2 H3
                | pem creds ch e H1 H2 H3 H4 | pem creds ch stub e H1 H2 H3 H4 H5
                | pem creds ch stub s rs e Ho Hd | pem creds ch stub s rs Ho Hd ].
  - apply (G 2). unfold run, start. simpl steps.
    unfold step at 2. simpl. rewrite H1. reflexivity.
  - apply (G 2). unfold run, start. simpl steps.
    unfold step at 2. simpl. rewrite H1, H2. reflexivity.
  - apply (G 3). unfold run, start. simpl steps.
    unfold step at 3. simpl. rewrite H1, H2. simpl.
    unfold step at 2. simpl. rewrite H3. reflexivity.
  - apply (G 4). unfold run, start. simpl steps.
    unfold step at 4. simpl. rewrite H1, H2. simpl.
    unfold step at 3. simpl. rewrite H3. simpl.
    unfold step at 2. simpl. rewrite H4. reflexivity.
  - apply (G 5). unfold run, start. simpl steps.
    unfold step at 5. simpl. rewrite H1, H2. simpl.
    unfold step at 4. simpl. rewrite H3. simpl.
    unfold step at 3. simpl. rewrite H4. simpl.
    unfold step at 2. simpl. rewrite H5. reflexivity.
  - destruct Hd as [Hs Hfin].
    apply (G (5 + 2 * length rs + 2)). unfold run. rewrite steps_add.
    fold (run str w (5 + 2 * length rs)).
    rewrite (loop_reached w pem creds ch stub s rs Ho Hs).
    simpl steps. unfold step at 2. simpl. rewrite Hfin.
    unfold step, goto. simpl. rewrite <- !app_assoc. reflexivity.
  - destruct Hd as [Hs Hfin].
    apply (G (5 + 2 * length rs + 2)). unfold run. rewrite steps_add.
    fold (run str w (5 + 2 * length rs)).
    rewrite (loop_reached w pem creds ch stub s rs Ho Hs).
    simpl steps. unfold step at 2. simpl. rewrite Hfin.
    unfold step, goto. simpl. rewrite <- !app_assoc. reflexivity.
Qed.

(** ** What a trace shows *)

Lemma stdout_of_app t1 t2 : stdout_of (t1 ++ t2) = stdout_of t1 ++ stdout_of t2.
Proof.
  induction t1 as [|ev t1 IH]; simpl.
  - reflexivity.
  - destruct ev; simpl; rewrite IH; reflexivity.
Qed.

Lemma stderr_of_app t1 t2 : stderr_of (t1 ++ t2) = stderr_of t1 ++ stderr_of t2.
Proof.
  induction t1 as [|ev t1 IH]; simpl.
  - reflexivity.
  - destruct ev; simpl; rewrite IH; reflexivity.
Qed.

Lemma stdout_of_loop pos rs : stdout_of (loop_events str pos rs) = map (line str) rs.
Proof.
  revert pos. induction rs as [|candle rs IH]; intros pos; simpl.
  - reflexivity.
  - rewrite IH. reflexivity.
Qed.

Lemma stderr_of_loop pos rs : stderr_of (loop_events str pos rs) = [].
Proof.
  revert pos. induction rs as [|candle rs IH]; intros pos; simpl.
  - reflexivity.
  - apply IH.
Qed.

(** The loop performs nothing but [next()] and [print]. *)
Lemma count_loop_other p pos rs :
  (forall k, p (StreamNext k) = false) ->
  (forall text, p (Stdout text) = false) ->
  count p (loop_events str pos rs) = 0.
Proof.
  intros Hn Hp. revert pos. unfold count.
  induction rs as [|candle rs IH]; intros pos; simpl.
  - reflexivity.
  - rewrite Hn, Hp. apply IH.
Qed.

Lemma count_loop_next pos rs :
  count is_stream_next (loop_events str pos rs) = length rs.
Proof.
  revert pos. unfold count.
  induction rs as [|candle rs IH]; intros pos; simpl.
  - reflexivity.
  - rewrite IH. reflexivity.
Qed.

Lemma count_le_later w p n m :
  n <= m -> count p (trace (run str w n)) <= count p (trace (run str w m)).
Proof.
  intros Hm. destruct (run_extends w n m Hm) as [evs E].
  rewrite E, count_app. lia.
Qed.

(** The calls made before the loop, however far the script gets, are made
    once. *)
Ltac count_setup :=
  repeat rewrite count_app;
  repeat (rewrite count_loop_other by reflexivity);
  unfold count; simpl; lia.

Lemma outcome_calls_once w oe t :
  Outcome str w oe t ->
  count is_file_read (t ++ epilogue oe) = 1 /\
  count is_secure_channel (t ++ epilogue oe) <= 1 /\
  count is_stub_create (t ++ epilogue oe) <= 1 /\
  count is_rpc_call (t ++ epilogue oe) <= 1.
Proof.
  intros H. destruct H; unfold setup_events; repeat split; count_setup.
Qed.

Lemma outcome_no_retry w oe t :
  Outcome str w oe t -> no_retry (t ++ epilogue oe).
Proof.
  intros H. destruct (outcome_calls_once w oe t H) as (H1 & H2 & H3 & H4).
  unfold no_retry. repeat split; try assumption. lia.
Qed.

Lemma outcome_stderr w oe t :
  Outcome str w oe t ->
  stderr_of (t ++ epilogue oe) =
  match oe with None => [] | Some e => [traceback e] end.
Proof.
  intros H. destruct H; unfold setup_events;
    repeat rewrite stderr_of_app; rewrite ?stderr_of_loop; reflexivity.
Qed.

Lemma fails_outcome w e : fails w e -> exists t, Outcome str w (Some e) t.
Proof.
  intros H.
  destruct H as [ H1 | pem H1 H2 | pem creds H1 H2 H3 | pem creds ch H1 H2 H3 H4
                | pem creds ch stub H1 H2 H3 H4 H5 | s rs Hsub Hd ].
  - eexists. apply out_file. exact H1.
  - eexists. apply (out_credentials str w pem e H1 H2).
  - eexists. apply (out_channel str w pem creds e H1 H2 H3).
  - eexists. apply (out_stub str w pem creds ch e H1 H2 H3 H4).
  - eexists. apply (out_call str w pem creds ch stub e H1 H2 H3 H4 H5).
  - destruct Hsub as (pem & creds & ch & stub & Ho).
    eexists. apply (out_stream_failure str w pem creds ch stub s rs e Ho Hd).
Qed.

Lemma outcome_fails w e t : Outcome str w (Some e) t -> fails w e.
Proof.
  intros H. inversion H; subst.
  - apply fails_file; assumption.
  - eapply fails_credentials; eassumption.
  - eapply fails_channel; eassumption.
  - eapply fails_stub; eassumption.
  - eapply fails_call; eassumption.
  - eapply fails_stream; [ | eassumption ].
    do 4 eexists; eassumption.
Qed.

Lemma outcome_closes w t : Outcome str w None t -> closes_gracefully w.
Proof.
  intros H. inversion H; subst.
  eexists. eexists. split; [ | eassumption ].
  do 4 eexists; eassumption.
Qed.

(** ** Streams: either the first [n] pulls are records, or the stream ends
    before *)

Lemma stream_prefix s n :
  (exists rs fin, delivers s rs fin /\
                  (fin = StopIteration \/ exists e, fin = Failure e)) \/
  (exists rs, length rs = n /\
              forall k candle, nth_error rs k = Some candle -> s k = Item candle).
Proof.
  induction n as [|n IH].
  - right. exists []. split; [reflexivity|].
    intros k candle H. destruct k; discriminate H.
  - destruct IH as [IH | (rs & Hlen & Hrs)]; [left; exact IH|].
    destruct (s n) as [candle | | e] eqn:E.
    + right. exists (rs ++ [candle]). split.
      * rewrite length_app. simpl. lia.
      * intros k r Hk.
        destruct (Nat.lt_ge_cases k (length rs)) as [Hlt | Hge].
        -- rewrite nth_error_app1 in Hk by exact Hlt. apply Hrs. exact Hk.
        -- rewrite nth_error_app2 in Hk by exact Hge.
           destruct (k - length rs) as [|j] eqn:Ej.
           ++ simpl in Hk. injection Hk as <-.
              replace k with n by lia. exact E.
           ++ simpl in Hk. destruct j; discriminate Hk.
    + left. exists rs, StopIteration. split.
      * split; [exact Hrs | rewrite Hlen; exact E].
      * left; reflexivity.
    + left. exists rs, (Failure e). split.
      * split; [exact Hrs | rewrite Hlen; exact E].
      * right; exists e; reflexivity.
Qed.

(** Every world either has an outcome or keeps the process in the loop
    for as long as one likes. *)
Lemma fate w n :
  (exists oe t, Outcome str w oe t) \/
  (exists pem creds ch stub s rs,
      opened w pem creds ch stub s /\ length rs = n /\
      forall k candle, nth_error rs k = Some candle -> s k = Item candle).
Proof.
  destruct (file_contents w PATH_TO_CERT_FILE) as [pem|e] eqn:H1;
    [ | left; do 2 eexists; apply out_file; exact H1 ].
  destruct (ssl_channel_credentials w pem) as [creds|e] eqn:H2;
    [ | left; do 2 eexists; apply (out_credentials str w pem e H1 H2) ].
  destruct (secure_channel w SERVER_ADDRESS creds) as [ch|e] eqn:H3;
    [ | left; do 2 eexists; apply (out_channel str w pem creds e H1 H2 H3) ].
  destruct (MessagesProxyStub w ch) as [stub|e] eqn:H4;
    [ | left; do 2 eexists; apply (out_stub str w pem creds ch e H1 H2 H3 H4) ].
  destruct (SubscribeSocialSentiment w stub) as [s|e] eqn:H5;
    [ | left; do 2 eexists; apply (out_call str w pem creds ch stub e H1 H2 H3 H4 H5) ].
  assert (Ho : opened w pem creds ch stub s) by (repeat split; assumption).
  destruct (stream_prefix s n) as [(rs & fin & Hd & [-> | (e & ->)]) | (rs & Hlen & Hrs)].
  - left. do 2 eexists. apply (out_close str w pem creds ch stub s rs Ho Hd).
  - left. do 2 eexists. apply (out_stream_failure str w pem creds ch stub s rs e Ho Hd).
  - right. exists pem, creds, ch, stub, s, rs. repeat split; assumption.
Qed.

(** A process that has exited did so by one of the outcomes. *)
Lemma exited_outcome w n oe :
  control (run str w n) = Exited oe ->
  exists t, Outcome str w oe t /\ trace (run str w n) = t ++ epilogue oe.
Proof.
  intros Hn.
  destruct (fate w n) as [(oe' & t & Hout) | (pem & creds & ch & stub & s & rs & Ho & Hlen & Hrs)].
  - destruct (outcome_run w oe' t Hout) as [n0 Hrun].
    assert (E : run str w (Nat.max n n0) = run str w n)
      by (apply (run_settled w n oe Hn); lia).
    rewrite (Hrun (Nat.max n n0)) in E by lia.
    rewrite <- E in Hn. simpl in Hn. injection Hn as ->.
    exists t. split; [exact Hout|]. rewrite <- E. reflexivity.
  - exfalso.
    assert (E : run str w (5 + 2 * length rs) = run str w n)
      by (apply (run_settled w n oe Hn); lia).
    rewrite (loop_reached w pem creds ch stub s rs Ho Hrs) in E.
    rewrite <- E in Hn. discriminate Hn.
Qed.

(** At no moment of no run has a call of the script been made twice. *)
Lemma no_retry_always w m : no_retry (trace (run str w m)).
Proof.
  assert (G : forall t, no_retry t ->
              (forall p, count p (trace (run str w m)) <= count p t) ->
              no_retry (trace (run str w m))).
  { intros t (H1 & H2 & H3 & H4) Hle. unfold no_retry.
    repeat split; eapply Nat.le_trans; try apply Hle; assumption. }
  destruct (fate w m) as [(oe & t & Hout) | (pem & creds & ch & stub & s & rs & Ho & Hlen & Hrs)].
  - destruct (outcome_run w oe t Hout) as [n0 Hrun].
    apply (G (t ++ epilogue oe)); [apply (outcome_no_retry w oe t Hout)|].
    intros p.
    replace (t ++ epilogue oe) with (trace (run str w (Nat.max m n0)))
      by (rewrite Hrun by lia; reflexivity).
    apply count_le_later. lia.
  - apply (G (setup_events pem creds ch stub ++ loop_events str 0 rs)).
    + unfold no_retry, setup_events. repeat split; count_setup.
    + intros p.
      replace (setup_events pem creds ch stub ++ loop_events str 0 rs)
        with (trace (run str w (5 + 2 * length rs)))
        by (rewrite (loop_reached w pem creds ch stub s rs Ho Hrs); reflexivity).
      apply count_le_later. lia.
Qed.

Lemma stream_trace_stdout pem creds ch stub rs oe :
  stdout_of ((setup_events pem creds ch stub ++ loop_events str 0 rs
              ++ [StreamNext (length rs)]) ++ epilogue oe) = map (line str) rs.
Proof.
  repeat rewrite stdout_of_app. rewrite stdout_of_loop.
  destruct oe; simpl; rewrite !app_nil_r; reflexivity.
Qed.

Lemma stream_trace_next pem creds ch stub rs oe :
  count is_stream_next ((setup_events pem creds ch stub ++ loop_events str 0 rs
              ++ [StreamNext (length rs)]) ++ epilogue oe) = S (length rs).
Proof.
  repeat rewrite count_app. rewrite count_loop_next.
  destruct oe; unfold count; simpl; lia.
Qed.

(** ** The state machine *)

Lemma run_succ w n : run str w (S n) = step str w (run str w n).
Proof. apply steps_succ. Qed.

Lemma step_transition w c :
  transition (phase (control c)) (phase (control (step str w c))) = true.
Proof.
  unfold step, after.
  destruct (control c) as [ | creds | ch | stub | s | s pos | s pos candle | | e | [e|] ]
    eqn:E; try (rewrite E; reflexivity).
  - destruct (file_contents w PATH_TO_CERT_FILE) as [pem|e]; [|reflexivity].
    destruct (ssl_channel_credentials w pem); reflexivity.
  - destruct (secure_channel w SERVER_ADDRESS creds); reflexivity.
  - destruct (MessagesProxyStub w ch); reflexivity.
  - destruct (SubscribeSocialSentiment w stub); reflexivity.
  - reflexivity.
  - destruct (s pos); reflexivity.
  - reflexivity.
  - reflexivity.
  - reflexivity.
Qed.

Lemma transition_rank p q : transition p q = true -> rank p <= rank q.
Proof.
  destruct p, q; simpl; intros H; try discriminate H; lia.
Qed.

Lemma transition_change p q :
  transition p q = true -> p <> q -> rank p < rank q.
Proof.
  destruct p, q; simpl; intros H Hne; try discriminate H; try lia;
    exfalso; apply Hne; reflexivity.
Qed.

Lemma phase_at_transition w n :
  transition (phase_at str w n) (phase_at str w (S n)) = true.
Proof.
  unfold phase_at. rewrite run_succ. apply step_transition.
Qed.

Lemma phase_monotone w n m :
  n <= m -> rank (phase_at str w n) <= rank (phase_at str w m).
Proof.
  induction 1 as [|m Hm IH].
  - apply Nat.le_refl.
  - eapply Nat.le_trans; [exact IH|].
    apply transition_rank, phase_at_transition.
Qed.

Lemma terminal_control (k : Control Value) :
  terminal (phase k) = true ->
  k = Returned \/ (exists e, k = Uncaught e) \/ (exists oe, k = Exited oe).
Proof.
  destruct k as [ | | | | | | | | e | oe ]; simpl; intros H; try discriminate H.
  - left; reflexivity.
  - right; left; exists e; reflexivity.
  - right; right; exists oe; reflexivity.
Qed.

Lemma terminal_exits w c :
  terminal (phase (control c)) = true ->
  (exists oe, control (step str w c) = Exited oe) /\
  phase (control (step str w c)) = phase (control c).
Proof.
  intros H. unfold step.
  destruct (terminal_control _ H) as [E | [(e & E) | (oe & E)]]; rewrite E; simpl.
  - split; [exists None|]; reflexivity.
  - split; [exists (Some e)|]; reflexivity.
  - rewrite E. split; [exists oe|]; reflexivity.
Qed.

(** ** The effects are the permitted ones *)

Lemma step_permitted w c :
  forallb permitted (trace c) = true ->
  forallb permitted (trace (step str w c)) = true.
Proof.
  intros H. unfold step, after, goto.
  destruct (control c) as [ | creds | ch | stub | s | s pos | s pos candle | | e | oe ];
    try (cbn [trace]; rewrite forallb_app, H; reflexivity).
  - destruct (file_contents w PATH_TO_CERT_FILE) as [pem|e];
      cbn [trace]; rewrite forallb_app, H; reflexivity.
  - destruct (s pos); cbn [trace]; rewrite forallb_app, H; reflexivity.
  - exact H.
Qed.

(** Records that agree on the two fields have the same lines. *)
Lemma lines_agree rs1 rs2 :
  Forall2 (fun a b => id a = id b /\ sentiment_avg a = sentiment_avg b) rs1 rs2 ->
  map (line str) rs1 = map (line str) rs2.
Proof.
  induction 1 as [|a b rs1 rs2 Hab _ IH]; simpl.
  - reflexivity.
  - destruct Hab as [Hid Havg].
    unfold line at 1 3. rewrite Hid, Havg, IH. reflexivity.
Qed.

(** ** The properties of the specification *)

(** C1: if every call before the loop returns and the stream yields the
    records [rs] and is then closed by the server, the process comes to an
    end in which standard output holds exactly one line per record, the
    identifier, a space and the sentiment average, in the order of arrival;
    the close adds nothing (standard error is empty) and the exit status
    is 0. *)
Theorem clean_close_prints_every_record w s rs :
  subscribes w s ->
  delivers s rs StopIteration ->
  exists n, forall m, n <= m ->
    stdout (run str w m) =
      map (fun candle =>
             (str (id candle) ++ " " ++ str (sentiment_avg candle) ++ newline)%string) rs /\
    length (stdout (run str w m)) = length rs /\
    stderr (run str w m) = [] /\
    exit_status (run str w m) = Some 0%Z.
Proof.
  intros (pem & creds & ch & stub & Ho) Hd.
  pose proof (out_close str w pem creds ch stub s rs Ho Hd) as Hout.
  destruct (outcome_run w None _ Hout) as [n Hrun].
  exists n. intros m Hm.
  assert (Hs : stdout (run str w m) = map (line str) rs).
  { unfold stdout. rewrite (Hrun m Hm).
    exact (stream_trace_stdout pem creds ch stub rs None). }
  repeat split.
  - exact Hs.
  - rewrite Hs. apply length_map.
  - unfold stderr. rewrite (Hrun m Hm).
    exact (outcome_stderr w None _ Hout).
  - unfold exit_status. rewrite (Hrun m Hm). reflexivity.
Qed.

(** C2: if the stream fails with [e] after the records [rs], the process
    comes to an end in which standard output holds the lines of these
    records and no more, the exception has left [main] and the exit status
    is 1; the channel was opened once and the call issued once, [next()]
    was called once per record and once for the failure, and at no moment
    of the run has any call been made a second time. *)
Theorem stream_failure_prints_prefix w s rs e :
  subscribes w s ->
  delivers s rs (Failure e) ->
  (exists n, forall m, n <= m ->
     stdout (run str w m) = map (line str) rs /\
     length (stdout (run str w m)) = length rs /\
     control (run str w m) = Exited (Some e) /\
     exit_status (run str w m) = Some 1%Z /\
     count is_secure_channel (trace (run str w m)) = 1 /\
     count is_rpc_call (trace (run str w m)) = 1 /\
     count is_stream_next (trace (run str w m)) = S (length rs)) /\
  (forall m, no_retry (trace (run str w m))).
Proof.
  intros (pem & creds & ch & stub & Ho) Hd.
  split; [ | apply no_retry_always ].
  pose proof (out_stream_failure str w pem creds ch stub s rs e Ho Hd) as Hout.
  destruct (outcome_run w (Some e) _ Hout) as [n Hrun].
  exists n. intros m Hm.
  assert (Hs : stdout (run str w m) = map (line str) rs).
  { unfold stdout. rewrite (Hrun m Hm).
    exact (stream_trace_stdout pem creds ch stub rs (Some e)). }
  repeat split.
  - exact Hs.
  - rewrite Hs. apply length_map.
  - rewrite (Hrun m Hm). reflexivity.
  - unfold exit_status. rewrite (Hrun m Hm). reflexivity.
  - rewrite (Hrun m Hm). cbn [trace]. unfold setup_events. count_setup.
  - rewrite (Hrun m Hm). cbn [trace]. unfold setup_events. count_setup.
  - rewrite (Hrun m Hm). exact (stream_trace_next pem creds ch stub rs (Some e)).
Qed.

(** C3: at the head of the loop, a record that arrives takes the process
    back to the head of the loop in two steps, and the effects of these
    two steps are the [next()] that received it and one write to standard
    output: the identifier, a space, the sentiment average, the end of the
    line.  Standard output grows by this one line, standard error by
    nothing. *)
Theorem record_prints_one_line w c s pos candle :
  control c = AtNext s pos ->
  s pos = Item candle ->
  let c' := steps str w 2 c in
  control c' = AtNext s (S pos) /\
  trace c' = trace c ++
    [StreamNext pos;
     Stdout (str (id candle) ++ " " ++ str (sentiment_avg candle) ++ newline)%string] /\
  stdout c' = stdout c ++
    [(str (id candle) ++ " " ++ str (sentiment_avg candle) ++ newline)%string] /\
  stderr c' = stderr c.
Proof.
  intros Hc Hs c'.
  assert (E : c' = {| control := AtNext s (pos + 1);
                      trace := trace c ++ loop_events str pos [candle] |}).
  { apply (loop_runs w s [candle] pos c Hc).
    intros k r Hk. destruct k as [|k].
    - injection Hk as <-. rewrite Nat.add_0_r. exact Hs.
    - destruct k; discriminate Hk. }
  rewrite E. unfold stdout, stderr. cbn [control trace loop_events].
  rewrite stdout_of_app, stderr_of_app.
  split; [ | split; [ | split ] ].
  - f_equal. lia.
  - reflexivity.
  - reflexivity.
  - apply app_nil_r.
Qed.

(** C4: in a deployment whose certificate is valid and whose server
    address cannot be reached, [openChannel] raises [ConnectionError]; the
    run ends with this exception right after the call that opens the
    channel, and at no moment has a stub been created, the call been
    issued or the stream been read. *)
Theorem unreachable_address_fails_at_channel d pem :
  disk d PATH_TO_CERT_FILE = Some pem ->
  valid_certificate d pem = true ->
  reachable d SERVER_ADDRESS = false ->
  loadCredentials d PATH_TO_CERT_FILE = Ok {| root_certificates := pem |} /\
  openChannel d SERVER_ADDRESS {| root_certificates := pem |} = Raise ConnectionError /\
  (forall m,
     count is_stub_create (trace (run str (world_of d) m)) = 0 /\
     count is_rpc_call (trace (run str (world_of d) m)) = 0 /\
     count is_stream_next (trace (run str (world_of d) m)) = 0) /\
  (exists n, forall m, n <= m ->
     run str (world_of d) m =
     {| control := Exited (Some ConnectionError);
        trace := [FileRead PATH_TO_CERT_FILE; SslChannelCredentials pem;
                  SecureChannel SERVER_ADDRESS {| root_certificates := pem |};
                  Stderr (traceback ConnectionError); Exit 1] |}).
Proof.
  intros Hdisk Hvalid Hreach.
  assert (Hload : loadCredentials d PATH_TO_CERT_FILE = Ok {| root_certificates := pem |}).
  { unfold loadCredentials. rewrite Hdisk, Hvalid. reflexivity. }
  assert (Hopen : openChannel d SERVER_ADDRESS {| root_certificates := pem |}
                  = Raise ConnectionError).
  { unfold openChannel. rewrite Hreach. reflexivity. }
  assert (Hout : Outcome str (world_of d) (Some ConnectionError)
                   [FileRead PATH_TO_CERT_FILE; SslChannelCredentials pem;
                    SecureChannel SERVER_ADDRESS {| root_certificates := pem |}]).
  { apply out_channel; simpl.
    - rewrite Hdisk. reflexivity.
    - rewrite Hvalid. reflexivity.
    - exact Hopen. }
  destruct (outcome_run (world_of d) _ _ Hout) as [n Hrun].
  split; [exact Hload|]. split; [exact Hopen|]. split.
  - intros m.
    assert (Hfinal : forall p,
              count p [FileRead PATH_TO_CERT_FILE; SslChannelCredentials pem;
                       SecureChannel SERVER_ADDRESS {| root_certificates := pem |};
                       Stderr (traceback ConnectionError); Exit 1] = 0 ->
              count p (trace (run str (world_of d) m)) = 0).
    { intros p Hp. apply (count_zero_earlier (world_of d) p m (Nat.max m n)); [lia|].
      rewrite (Hrun (Nat.max m n)) by lia. exact Hp. }
    repeat split; apply Hfinal; reflexivity.
  - exists n. intros m Hm. rewrite (Hrun m Hm). reflexivity.
Qed.

(** C5: in a deployment whose certificate path is missing (or unreadable),
    [loadCredentials] raises [FileError]; in one whose certificate file is
    empty it raises [CredentialFormatError].  In both the run ends with
    this exception and exit status 1, and at no moment has the script
    tried to open a channel. *)
Theorem bad_certificate_fails_before_channel d :
  disk d PATH_TO_CERT_FILE = None \/ disk d PATH_TO_CERT_FILE = Some [] ->
  let e := match disk d PATH_TO_CERT_FILE with
           | None => FileError
           | Some _ => CredentialFormatError
           end in
  loadCredentials d PATH_TO_CERT_FILE = Raise e /\
  (forall m, count is_secure_channel (trace (run str (world_of d) m)) = 0) /\
  (exists n, forall m, n <= m ->
     control (run str (world_of d) m) = Exited (Some e) /\
     exit_status (run str (world_of d) m) = Some 1%Z).
Proof.
  intros Hdisk e.
  assert (Hload : loadCredentials d PATH_TO_CERT_FILE = Raise e).
  { unfold loadCredentials, e. destruct Hdisk as [-> | ->]; reflexivity. }
  assert (Hout : exists t, Outcome str (world_of d) (Some e) t /\
                           count is_secure_channel (t ++ epilogue (Some e)) = 0).
  { unfold e. destruct Hdisk as [H | H]; rewrite H.
    - exists [FileRead PATH_TO_CERT_FILE]. split; [|reflexivity].
      apply out_file. simpl. rewrite H. reflexivity.
    - exists [FileRead PATH_TO_CERT_FILE; SslChannelCredentials []].
      split; [|reflexivity].
      apply out_credentials; simpl.
      + rewrite H. reflexivity.
      + reflexivity. }
  destruct Hout as (t & Hout & Hcount).
  destruct (outcome_run (world_of d) _ _ Hout) as [n Hrun].
  split; [exact Hload|]. split.
  - intros m.
    apply (count_zero_earlier (world_of d) _ m (Nat.max m n)); [lia|].
    rewrite (Hrun (Nat.max m n)) by lia. exact Hcount.
  - exists n. intros m Hm. unfold exit_status.
    rewrite (Hrun m Hm). split; reflexivity.
Qed.

(** C6: some moment of the run shows exit status 0 exactly when the stream
    of the run was closed by the server.  When any call of the run raises
    (reading the file, building the credentials, opening the channel,
    creating the stub, issuing the call, or a [next()] in mid-stream), the
    run ends with exit status 1 and the traceback of that exception as the
    only text on standard error, and no call is ever made a second time.
    An exit status is 0 or 1, and 1 only after such a failure. *)
Theorem exit_status_tells_outcome w :
  ((exists n, exit_status (run str w n) = Some 0%Z) <-> closes_gracefully w) /\
  (forall e, fails w e ->
     exists n, forall m, n <= m ->
       control (run str w m) = Exited (Some e) /\
       exit_status (run str w m) = Some 1%Z /\
       stderr (run str w m) = [traceback e] /\
       traceback e <> EmptyString) /\
  (forall m, no_retry (trace (run str w m))) /\
  (forall n st, exit_status (run str w n) = Some st ->
     st = 0%Z \/
     (st = 1%Z /\ exists e, fails w e /\ stderr (run str w n) = [traceback e])).
Proof.
  split; [split|split; [|split]].
  - intros (n & Hn). unfold exit_status in Hn.
    destruct (control (run str w n)) as [ | | | | | | | | | [e|] ] eqn:E;
      try discriminate Hn.
    destruct (exited_outcome w n None E) as (t & Hout & _).
    apply (outcome_closes w t Hout).
  - intros (s & rs & (pem & creds & ch & stub & Ho) & Hd).
    pose proof (out_close str w pem creds ch stub s rs Ho Hd) as Hout.
    destruct (outcome_run w None _ Hout) as [n Hrun].
    exists n. unfold exit_status. rewrite (Hrun n (Nat.le_refl n)). reflexivity.
  - intros e Hf.
    destruct (fails_outcome w e Hf) as (t & Hout).
    destruct (outcome_run w (Some e) t Hout) as [n Hrun].
    exists n. intros m Hm. unfold exit_status, stderr.
    rewrite (Hrun m Hm). cbn [control trace].
    repeat split.
    + exact (outcome_stderr w (Some e) t Hout).
    + destruct e; discriminate.
  - apply no_retry_always.
  - intros n st Hn. unfold exit_status in Hn.
    destruct (control (run str w n)) as [ | | | | | | | | | [e|] ] eqn:E;
      try discriminate Hn.
    + right. injection Hn as <-. split; [reflexivity|].
      destruct (exited_outcome w n (Some e) E) as (t & Hout & Ht).
      exists e. split; [exact (outcome_fails w e t Hout)|].
      unfold stderr. rewrite Ht. exact (outcome_stderr w (Some e) t Hout).
    + left. injection Hn as <-. reflexivity.
Qed.

(** C7: every run starts in [Idle]; every step is a transition of the
    state machine; the position of the state in the chain never decreases;
    no change of state happens twice; a run that has reached [Completed]
    or [Failed] has exited one step later and stays in that state for
    ever; and no call of the script is ever made a second time. *)
Theorem run_follows_state_machine w :
  phase_at str w 0 = Idle /\
  (forall n, transition (phase_at str w n) (phase_at str w (S n)) = true) /\
  (forall n m, n <= m -> rank (phase_at str w n) <= rank (phase_at str w m)) /\
  (forall i j, i < j ->
     phase_at str w (S i) <> phase_at str w i ->
     phase_at str w (S j) <> phase_at str w j ->
     (phase_at str w i, phase_at str w (S i)) <>
     (phase_at str w j, phase_at str w (S j))) /\
  (forall n, terminal (phase_at str w n) = true ->
     (exists oe, control (run str w (S n)) = Exited oe) /\
     forall m, n <= m -> phase_at str w m = phase_at str w n) /\
  (forall n, no_retry (trace (run str w n))).
Proof.
  split; [reflexivity|].
  split; [apply phase_at_transition|].
  split; [apply phase_monotone|].
  split; [|split; [|apply no_retry_always]].
  - intros i j Hij Hi Hj Heq. injection Heq as E1 E2.
    pose proof (phase_monotone w (S i) j Hij) as Hle.
    pose proof (transition_change _ _ (phase_at_transition w j)
                  (fun H => Hj (eq_sym H))) as Hlt.
    rewrite <- E2 in Hlt. lia.
  - intros n Hn. unfold phase_at in *.
    destruct (terminal_exits w (run str w n) Hn) as ((oe & Hex) & Hph).
    rewrite <- run_succ in Hex, Hph.
    split; [exists oe; exact Hex|].
    intros m Hm. destruct (Nat.eq_dec m n) as [->|Hne]; [reflexivity|].
    rewrite (run_settled w (S n) oe Hex m) by lia. exact Hph.
Qed.

(** C8: two runs, in worlds that may differ in everything but the records
    their streams yield before the server closes them, end with the same
    standard output (the lines of these records), the same standard error
    and the same exit status; every run starts from the same state
    [start], which holds nothing of an earlier run. *)
Theorem runs_on_same_stream_agree w1 w2 s1 s2 rs :
  subscribes w1 s1 -> delivers s1 rs StopIteration ->
  subscribes w2 s2 -> delivers s2 rs StopIteration ->
  run str w1 0 = start Value /\ run str w2 0 = start Value /\
  exists n, forall m1 m2, n <= m1 -> n <= m2 ->
    stdout (run str w1 m1) = map (line str) rs /\
    stdout (run str w1 m1) = stdout (run str w2 m2) /\
    stderr (run str w1 m1) = stderr (run str w2 m2) /\
    exit_status (run str w1 m1) = exit_status (run str w2 m2).
Proof.
  intros (pem1 & creds1 & ch1 & stub1 & Ho1) Hd1 (pem2 & creds2 & ch2 & stub2 & Ho2) Hd2.
  split; [reflexivity|]. split; [reflexivity|].
  pose proof (out_close str w1 pem1 creds1 ch1 stub1 s1 rs Ho1 Hd1) as Hout1.
  pose proof (out_close str w2 pem2 creds2 ch2 stub2 s2 rs Ho2 Hd2) as Hout2.
  destruct (outcome_run w1 None _ Hout1) as [n1 Hrun1].
  destruct (outcome_run w2 None _ Hout2) as [n2 Hrun2].
  exists (Nat.max n1 n2). intros m1 m2 Hm1 Hm2.
  unfold stdout, stderr, exit_status.
  rewrite (Hrun1 m1) by lia. rewrite (Hrun2 m2) by lia. cbn [control trace].
  rewrite (stream_trace_stdout pem1 creds1 ch1 stub1 rs None).
  rewrite (stream_trace_stdout pem2 creds2 ch2 stub2 rs None).
  rewrite (outcome_stderr w1 None _ Hout1), (outcome_stderr w2 None _ Hout2).
  repeat split.
Qed.

(** The statements of [main]: at every moment of every run of [main],
    every effect it has had is a permitted one: a read of the certificate
    file, the construction of the credentials, an operation on the channel,
    a write to one of the two console streams, or the exit.  (The imports
    of the module level are not effects of [main]; see [script_step].) *)
Theorem effects_are_permitted w n :
  forallb permitted (trace (run str w n)) = true /\
  (forall path, In (FileRead path) (trace (run str w n)) -> path = PATH_TO_CERT_FILE) /\
  (forall path, ~ In (FileWrite path) (trace (run str w n))) /\
  (forall name, ~ In (EnvRead name) (trace (run str w n))).
Proof.
  assert (H : forallb permitted (trace (run str w n)) = true).
  { induction n as [|n IH].
    - reflexivity.
    - rewrite run_succ. apply step_permitted. exact IH. }
  split; [exact H|].
  rewrite forallb_forall in H.
  repeat split.
  - intros path Hin. apply H in Hin. simpl in Hin.
    apply String.eqb_eq. exact Hin.
  - intros path Hin. apply H in Hin. discriminate Hin.
  - intros name Hin. apply H in Hin. discriminate Hin.
Qed.

(** C10: two runs whose streams yield equally many records that agree, one
    by one, on [id] and on [sentiment_avg] (and may differ in every other
    field) and are then closed end with the same standard output. *)
Theorem output_depends_on_two_fields w1 w2 s1 s2 rs1 rs2 :
  subscribes w1 s1 -> delivers s1 rs1 StopIteration ->
  subscribes w2 s2 -> delivers s2 rs2 StopIteration ->
  Forall2 (fun a b => id a = id b /\ sentiment_avg a = sentiment_avg b) rs1 rs2 ->
  exists n, forall m1 m2, n <= m1 -> n <= m2 ->
    stdout (run str w1 m1) = stdout (run str w2 m2).
Proof.
  intros (pem1 & creds1 & ch1 & stub1 & Ho1) Hd1 (pem2 & creds2 & ch2 & stub2 & Ho2) Hd2 Hagree.
  pose proof (lines_agree rs1 rs2 Hagree) as Hlines.
  pose proof (out_close str w1 pem1 creds1 ch1 stub1 s1 rs1 Ho1 Hd1) as Hout1.
  pose proof (out_close str w2 pem2 creds2 ch2 stub2 s2 rs2 Ho2 Hd2) as Hout2.
  destruct (outcome_run w1 None _ Hout1) as [n1 Hrun1].
  destruct (outcome_run w2 None _ Hout2) as [n2 Hrun2].
  exists (Nat.max n1 n2). intros m1 m2 Hm1 Hm2.
  unfold stdout.
  rewrite (Hrun1 m1) by lia. rewrite (Hrun2 m2) by lia. cbn [trace].
  rewrite (stream_trace_stdout pem1 creds1 ch1 stub1 rs1 None).
  rewrite (stream_trace_stdout pem2 creds2 ch2 stub2 rs2 None).
  exact Hlines.
Qed.

End SubscriberFacts.

(** * The whole run *)

Section RunFacts.

Context {Value : Type} (str : Value -> string).

Implicit Types (w : World Value) (c : Config Value) (s : ResponseStream Value).
Implicit Types (rs : list (SentimentRecord Value)) (candle : SentimentRecord Value).
Implicit Types (t : list Event) (e : Exc).

(** ** Every state of a run is a reached one *)

Lemma loop_events_app pos rs1 rs2 :
  loop_events str pos (rs1 ++ rs2) =
  loop_events str pos rs1 ++ loop_events str (pos + length rs1) rs2.
Proof.
  revert pos. induction rs1 as [|candle rs1 IH]; intros pos; simpl.
  - rewrite Nat.add_0_r. reflexivity.
  - rewrite IH. replace (S pos + length rs1) with (pos + S (length rs1)) by lia.
    reflexivity.
Qed.

Lemma yields_snoc s rs candle :
  yields s rs -> s (length rs) = Item candle -> yields s (rs ++ [candle]).
Proof.
  intros Hrs E k r Hk.
  destruct (Nat.lt_ge_cases k (length rs)) as [Hlt | Hge].
  - rewrite nth_error_app1 in Hk by exact Hlt. apply Hrs. exact Hk.
  - rewrite nth_error_app2 in Hk by exact Hge.
    destruct (k - length rs) as [|j] eqn:Ej.
    + simpl in Hk. injection Hk as <-.
      replace k with (length rs) by lia. exact E.
    + simpl in Hk. destruct j; discriminate Hk.
Qed.

Lemma reached_step w c : Reached str w c -> Reached str w (step str w c).
Proof.
  intros R.
  destruct R as [ | pem creds H1 H2 | pem creds ch H1 H2 H3 | pem creds ch stub H1 H2 H3 H4
                | pem creds ch stub s Ho | pem creds ch stub s rs Ho Hrs
                | pem creds ch stub s rs candle Ho Hrs Hc
                | t Hout | e t Hout | oe t Hout ];
    unfold step, goto, after; cbn [control trace].
  - destruct (file_contents w PATH_TO_CERT_FILE) as [pem|e] eqn:H1.
    + destruct (ssl_channel_credentials w pem) as [creds|e] eqn:H2.
      * apply (reached_channel str w pem creds H1 H2).
      * apply reached_uncaught. apply (out_credentials str w pem e H1 H2).
    + apply reached_uncaught. apply (out_file str w e H1).
  - destruct (secure_channel w SERVER_ADDRESS creds) as [ch|e] eqn:H3.
    + apply (reached_stub str w pem creds ch H1 H2 H3).
    + apply reached_uncaught. apply (out_channel str w pem creds e H1 H2 H3).
  - destruct (MessagesProxyStub w ch) as [stub|e] eqn:H4.
    + apply (reached_call str w pem creds ch stub H1 H2 H3 H4).
    + apply reached_uncaught. apply (out_stub str w pem creds ch e H1 H2 H3 H4).
  - destruct (SubscribeSocialSentiment w stub) as [s|e] eqn:H5.
    + apply (reached_for str w pem creds ch stub s).
      repeat split; assumption.
    + apply reached_uncaught. apply (out_call str w pem creds ch stub e H1 H2 H3 H4 H5).
  - rewrite app_nil_r.
    replace (setup_events pem creds ch stub)
      with (setup_events pem creds ch stub ++ loop_events str 0 []) by apply app_nil_r.
    apply (reached_next str w pem creds ch stub s [] Ho).
    intros k candle Hk. destruct k; discriminate Hk.
  - rewrite <- app_assoc.
    destruct (s (length rs)) as [candle | | e] eqn:E.
    + apply (reached_print str w pem creds ch stub s rs candle Ho Hrs E).
    + apply reached_return.
      apply (out_close str w pem creds ch stub s rs Ho). split; assumption.
    + apply reached_uncaught.
      apply (out_stream_failure str w pem creds ch stub s rs e Ho). split; assumption.
  - rewrite print_line.
    replace (S (length rs)) with (length (rs ++ [candle]))
      by (rewrite length_app; simpl; lia).
    replace ((setup_events pem creds ch stub ++ loop_events str 0 rs
              ++ [StreamNext (length rs)]) ++ [Stdout (line str candle)])
      with (setup_events pem creds ch stub ++ loop_events str 0 (rs ++ [candle])).
    + apply (reached_next str w pem creds ch stub s (rs ++ [candle]) Ho).
      apply yields_snoc; assumption.
    + rewrite loop_events_app. simpl. rewrite <- !app_assoc. reflexivity.
  - apply (reached_exit str w None t Hout).
  - apply (reached_exit str w (Some e) t Hout).
  - apply (reached_exit str w oe t Hout).
Qed.

Lemma reached_run w n : Reached str w (run str w n).
Proof.
  induction n as [|n IH].
  - apply reached_start.
  - rewrite run_succ. apply reached_step. exact IH.
Qed.

(** ** What the console shows while the process runs *)

(** A world that subscribes to an endless stream has no outcome. *)
Lemma outcome_not_endless w oe t s :
  Outcome str w oe t -> subscribes w s -> endless s -> False.
Proof.
  intros Hout (pem & creds & ch & stub & H1 & H2 & H3 & H4 & H5) Hend.
  destruct Hout as [ e G1 | pem' e G1 G2 | pem' creds' e G1 G2 G3
                   | pem' creds' ch' e G1 G2 G3 G4
                   | pem' creds' ch' stub' e G1 G2 G3 G4 G5
                   | pem' creds' ch' stub' s' rs e (G1 & G2 & G3 & G4 & G5) [_ Hfin]
                   | pem' creds' ch' stub' s' rs (G1 & G2 & G3 & G4 & G5) [_ Hfin] ];
    try congruence.
  - assert (s' = s) by congruence. subst s'.
    destruct (Hend (length rs)) as [candle E]. congruence.
  - assert (s' = s) by congruence. subst s'.
    destruct (Hend (length rs)) as [candle E]. congruence.
Qed.

Lemma reached_stdout w c :
  Reached str w c ->
  stdout c = [] \/
  exists s rs, subscribes w s /\ yields s rs /\ stdout c = map (line str) rs.
Proof.
  intros R. unfold stdout.
  assert (G : forall pem creds ch stub s rs tail,
            opened w pem creds ch stub s -> yields s rs ->
            stdout_of tail = [] ->
            stdout_of (setup_events pem creds ch stub ++ loop_events str 0 rs ++ tail) = [] \/
            exists s0 rs0, subscribes w s0 /\ yields s0 rs0 /\
              stdout_of (setup_events pem creds ch stub ++ loop_events str 0 rs ++ tail)
              = map (line str) rs0).
  { intros pem creds ch stub s rs tail Ho Hrs Htail. right. exists s, rs.
    split; [exists pem, creds, ch, stub; exact Ho|]. split; [exact Hrs|].
    rewrite !stdout_of_app, stdout_of_loop, Htail. simpl. apply app_nil_r. }
  destruct R as [ | pem creds H1 H2 | pem creds ch H1 H2 H3 | pem creds ch stub H1 H2 H3 H4
                | pem creds ch stub s Ho | pem creds ch stub s rs Ho Hrs
                | pem creds ch stub s rs candle Ho Hrs Hc
                | t Hout | e t Hout | oe t Hout ];
    cbn [trace]; try (left; reflexivity).
  - rewrite <- (app_nil_r (loop_events str 0 rs)).
    apply (G pem creds ch stub s rs []); [exact Ho | exact Hrs | reflexivity].
  - apply (G pem creds ch stub s rs); [exact Ho | exact Hrs | reflexivity].
  - inversion Hout as [ | | | | | | pem creds ch stub s rs Ho [Hrs _] ]; subst.
    apply (G pem creds ch stub s rs); [exact Ho | exact Hrs | reflexivity].
  - inversion Hout as [ | | | | | pem creds ch stub s rs e' Ho [Hrs _] | ]; subst;
      try (left; reflexivity).
    apply (G pem creds ch stub s rs); [exact Ho | exact Hrs | reflexivity].
  - destruct Hout as [ e G1 | pem e G1 G2 | pem creds e G1 G2 G3
                     | pem creds ch e G1 G2 G3 G4
                     | pem creds ch stub e G1 G2 G3 G4 G5
                     | pem creds ch stub s rs e Ho [Hrs _]
                     | pem creds ch stub s rs Ho [Hrs _] ];
      try (left; reflexivity).
    + rewrite <- !app_assoc.
      apply (G pem creds ch stub s rs); [exact Ho | exact Hrs | reflexivity].
    + rewrite <- !app_assoc.
      apply (G pem creds ch stub s rs); [exact Ho | exact Hrs | reflexivity].
Qed.

(** X1: when the call returns a stream that never ends and never fails,
    the run never reaches [Completed] or [Failed] and never has an exit
    status, and every record of the stream is printed at some moment, at
    its position in the output. *)
Theorem endless_stream_never_ends w s :
  subscribes w s ->
  endless s ->
  (forall n, terminal (phase_at str w n) = false /\
             exit_status (run str w n) = None) /\
  (forall k, exists n candle,
      s k = Item candle /\
      nth_error (stdout (run str w n)) k = Some (line str candle)).
Proof.
  intros Hsub Hend. split.
  - intros n. unfold phase_at, exit_status.
    pose proof (reached_run w n) as R.
    destruct R as [ | pem creds H1 H2 | pem creds ch H1 H2 H3 | pem creds ch stub H1 H2 H3 H4
                  | pem creds ch stub s0 Ho | pem creds ch stub s0 rs Ho Hrs
                  | pem creds ch stub s0 rs candle Ho Hrs Hc
                  | t Hout | e t Hout | oe t Hout ];
      cbn [control phase terminal]; try (split; reflexivity);
      exfalso; apply (outcome_not_endless w _ t s Hout Hsub Hend).
  - intros k.
    destruct (stream_prefix s (S k)) as [(rs & fin & [_ Hfin] & Hended) | (rs & Hlen & Hrs)].
    + exfalso. destruct (Hend (length rs)) as [candle E].
      destruct Hended as [-> | (e & ->)]; congruence.
    + destruct (nth_error rs k) as [candle|] eqn:Ek.
      * exists (5 + 2 * length rs), candle. split; [apply Hrs; exact Ek|].
        destruct Hsub as (pem & creds & ch & stub & Ho).
        unfold stdout. rewrite (loop_reached str w pem creds ch stub s rs Ho Hrs).
        cbn [trace]. rewrite stdout_of_app, stdout_of_loop. simpl.
        rewrite nth_error_map, Ek. reflexivity.
      * exfalso. apply nth_error_None in Ek. lia.
Qed.

(** X3: at every moment of every run, what is on standard output is the
    lines of the first records of the stream the call returned, in their
    order: nothing is printed before the call has returned a stream,
    nothing that was not received, nothing twice. *)
Theorem stdout_is_prefix_of_stream w n :
  stdout (run str w n) = [] \/
  exists s rs, subscribes w s /\ yields s rs /\
               stdout (run str w n) = map (line str) rs.
Proof.
  apply (reached_stdout w). apply reached_run.
Qed.

(** ** The calls: their arguments and their order *)

Lemma loop_justified w pos rs : Forall (justified w) (loop_events str pos rs).
Proof.
  revert pos. induction rs as [|candle rs IH]; intros pos; simpl.
  - constructor.
  - constructor; [exact I|]. constructor; [exact I|]. apply IH.
Qed.

Lemma epilogue_justified w oe : Forall (justified w) (epilogue oe).
Proof.
  destruct oe; simpl; repeat constructor.
Qed.

Lemma setup_justified w pem creds ch stub s :
  opened w pem creds ch stub s ->
  Forall (justified w) (setup_events pem creds ch stub).
Proof.
  intros (H1 & H2 & H3 & H4 & H5). unfold setup_events.
  repeat constructor; simpl; eauto 10.
Qed.

Lemma outcome_justified w oe t : Outcome str w oe t -> Forall (justified w) t.
Proof.
  intros Hout.
  destruct Hout as [ e G1 | pem e G1 G2 | pem creds e G1 G2 G3
                   | pem creds ch e G1 G2 G3 G4
                   | pem creds ch stub e G1 G2 G3 G4 G5
                   | pem creds ch stub s rs e Ho _
                   | pem creds ch stub s rs Ho _ ].
  - repeat constructor.
  - repeat constructor; simpl; eauto 10.
  - repeat constructor; simpl; eauto 10.
  - repeat constructor; simpl; eauto 10.
  - unfold setup_events. repeat constructor; simpl; eauto 10.
  - apply Forall_app; split; [apply (setup_justified w pem creds ch stub s Ho)|].
    apply Forall_app; split; [apply loop_justified|]. repeat constructor.
  - apply Forall_app; split; [apply (setup_justified w pem creds ch stub s Ho)|].
    apply Forall_app; split; [apply loop_justified|]. repeat constructor.
Qed.

Lemma reached_justified w c : Reached str w c -> Forall (justified w) (trace c).
Proof.
  intros R.
  destruct R as [ | pem creds H1 H2 | pem creds ch H1 H2 H3 | pem creds ch stub H1 H2 H3 H4
                | pem creds ch stub s Ho | pem creds ch stub s rs Ho Hrs
                | pem creds ch stub s rs candle Ho Hrs Hc
                | t Hout | e t Hout | oe t Hout ];
    cbn [trace].
  - constructor.
  - repeat constructor; simpl; eauto 10.
  - repeat constructor; simpl; eauto 10.
  - repeat constructor; simpl; eauto 10.
  - apply (setup_justified w pem creds ch stub s Ho).
  - apply Forall_app; split; [apply (setup_justified w pem creds ch stub s Ho)|].
    apply loop_justified.
  - apply Forall_app; split; [apply (setup_justified w pem creds ch stub s Ho)|].
    apply Forall_app; split; [apply loop_justified|]. repeat constructor.
  - apply (outcome_justified w None t Hout).
  - apply (outcome_justified w (Some e) t Hout).
  - apply Forall_app; split; [apply (outcome_justified w oe t Hout)|].
    apply epilogue_justified.
Qed.

(** X5: at every moment of every run, every call in the trace was made
    with what the calls before it returned: the credentials were built from
    the bytes of [./cert.pem], the channel was opened to [SERVER] with these
    credentials, the stub was created on that channel, and the call issued
    is [SubscribeSocialSentiment] on that stub. *)
Theorem calls_pass_on_what_was_returned w n :
  Forall (justified w) (trace (run str w n)) /\
  (forall addr creds, In (SecureChannel addr creds) (trace (run str w n)) ->
     addr = SERVER_ADDRESS /\
     exists pem, file_contents w PATH_TO_CERT_FILE = Ok pem /\
                 ssl_channel_credentials w pem = Ok creds) /\
  (forall method stub, In (RpcCall method stub) (trace (run str w n)) ->
     method = "SubscribeSocialSentiment" /\
     exists creds ch, secure_channel w SERVER_ADDRESS creds = Ok ch /\
                      MessagesProxyStub w ch = Ok stub).
Proof.
  pose proof (reached_justified w _ (reached_run w n)) as H.
  split; [exact H|].
  rewrite Forall_forall in H. split.
  - intros addr creds Hin. exact (H _ Hin).
  - intros method stub Hin.
    destruct (H _ Hin) as (Hm & pem & creds & ch & _ & _ & H3 & H4).
    split; [exact Hm|]. exists creds, ch. split; assumption.
Qed.

(** The one-pass check decides [before]. *)
Lemma beforeb_sound p q t :
  forall seen, beforeb p q seen t = true ->
  forall t1 ev t2, t = t1 ++ ev :: t2 -> q ev = true ->
    seen = true \/ exists ev', In ev' t1 /\ p ev' = true.
Proof.
  induction t as [|x t IH]; intros seen Hb t1 ev t2 E Hq.
  - destruct t1; discriminate E.
  - simpl in Hb. apply andb_true_iff in Hb. destruct Hb as [Hx Ht].
    destruct t1 as [|y t1]; simpl in E; injection E as -> E.
    + rewrite Hq in Hx. left. exact Hx.
    + destruct (IH _ Ht t1 ev t2 E Hq) as [Hs | (ev' & Hin & Hp)].
      * apply orb_true_iff in Hs. destruct Hs as [Hs | Hs].
        -- left. exact Hs.
        -- right. exists y. split; [left; reflexivity | exact Hs].
      * right. exists ev'. split; [right; exact Hin | exact Hp].
Qed.

Lemma beforeb_before p q t : beforeb p q false t = true -> before p q t.
Proof.
  intros Hb t1 ev t2 E Hq.
  destruct (beforeb_sound p q t false Hb t1 ev t2 E Hq) as [H | H].
  - discriminate H.
  - exact H.
Qed.

Lemma beforeb_seen p q t : beforeb p q true t = true.
Proof.
  induction t as [|x t IH]; simpl.
  - reflexivity.
  - rewrite IH. destruct (q x); reflexivity.
Qed.

Lemma beforeb_app p q t1 t2 :
  forall seen,
    beforeb p q seen (t1 ++ t2) =
    beforeb p q seen t1 && beforeb p q (seen || existsb p t1) t2.
Proof.
  induction t1 as [|x t1 IH]; intros seen; simpl.
  - rewrite orb_false_r. reflexivity.
  - rewrite IH, andb_assoc, orb_assoc. reflexivity.
Qed.

(** A kind of call of the set-up comes before whatever follows the
    set-up. *)
Lemma beforeb_setup p q pem creds ch stub rest :
  beforeb p q false (setup_events pem creds ch stub) = true ->
  existsb p (setup_events pem creds ch stub) = true ->
  beforeb p q false (setup_events pem creds ch stub ++ rest) = true.
Proof.
  intros H1 H2. rewrite beforeb_app, H1, H2. apply beforeb_seen.
Qed.

Lemma outcome_ordered p q w oe t :
  (p = is_file_read /\ q = is_ssl_credentials) \/
  (p = is_ssl_credentials /\ q = is_secure_channel) \/
  (p = is_secure_channel /\ q = is_stub_create) \/
  (p = is_stub_create /\ q = is_rpc_call) \/
  (p = is_rpc_call /\ q = is_stream_next) ->
  Outcome str w oe t -> beforeb p q false (t ++ epilogue oe) = true.
Proof.
  intros Hpq Hout.
  destruct Hout as [ e G1 | pem e G1 G2 | pem creds e G1 G2 G3
                   | pem creds ch e G1 G2 G3 G4
                   | pem creds ch stub e G1 G2 G3 G4 G5
                   | pem creds ch stub s rs e Ho _
                   | pem creds ch stub s rs Ho _ ];
    try rewrite <- app_assoc;
    destruct Hpq as [[-> ->] | [[-> ->] | [[-> ->] | [[-> ->] | [-> ->]]]]];
    first [ reflexivity | apply beforeb_setup; reflexivity ].
Qed.

Lemma reached_ordered p q w c :
  (p = is_file_read /\ q = is_ssl_credentials) \/
  (p = is_ssl_credentials /\ q = is_secure_channel) \/
  (p = is_secure_channel /\ q = is_stub_create) \/
  (p = is_stub_create /\ q = is_rpc_call) \/
  (p = is_rpc_call /\ q = is_stream_next) ->
  Reached str w c -> beforeb p q false (trace c) = true.
Proof.
  intros Hpq R.
  destruct R as [ | pem creds H1 H2 | pem creds ch H1 H2 H3 | pem creds ch stub H1 H2 H3 H4
                | pem creds ch stub s Ho | pem creds ch stub s rs Ho Hrs
                | pem creds ch stub s rs candle Ho Hrs Hc
                | t Hout | e t Hout | oe t Hout ];
    cbn [trace].
  8: { pose proof (outcome_ordered p q w None t Hpq Hout) as H.
       rewrite beforeb_app in H. apply andb_true_iff in H. apply H. }
  8: { pose proof (outcome_ordered p q w (Some e) t Hpq Hout) as H.
       rewrite beforeb_app in H. apply andb_true_iff in H. apply H. }
  8: { apply (outcome_ordered p q w oe t Hpq Hout). }
  all: destruct Hpq as [[-> ->] | [[-> ->] | [[-> ->] | [[-> ->] | [-> ->]]]]];
    first [ reflexivity | apply beforeb_setup; reflexivity ].
Qed.

(** X6: in the trace of every run, at every moment, the calls stand in
    the order of the program: the credentials are built only after the
    file was read, the channel is opened only after the credentials were
    built, the stub is created only after the channel was opened, the call
    is issued only after the stub was created, and the stream is pulled
    only after the call was issued. *)
Theorem calls_in_program_order w n :
  before is_file_read is_ssl_credentials (trace (run str w n)) /\
  before is_ssl_credentials is_secure_channel (trace (run str w n)) /\
  before is_secure_channel is_stub_create (trace (run str w n)) /\
  before is_stub_create is_rpc_call (trace (run str w n)) /\
  before is_rpc_call is_stream_next (trace (run str w n)).
Proof.
  pose proof (reached_run w n) as R.
  repeat split; apply beforeb_before;
    apply (fun H => reached_ordered _ _ w _ H R); tauto.
Qed.

(** ** The stream is read in sequence *)

Lemma pulled_app t1 t2 : pulled (t1 ++ t2) = pulled t1 ++ pulled t2.
Proof.
  induction t1 as [|ev t1 IH]; simpl.
  - reflexivity.
  - destruct ev; simpl; rewrite IH; reflexivity.
Qed.

Lemma pulled_loop pos rs : pulled (loop_events str pos rs) = seq pos (length rs).
Proof.
  revert pos. induction rs as [|candle rs IH]; intros pos; simpl.
  - reflexivity.
  - rewrite IH. reflexivity.
Qed.

Lemma pulled_stream pem creds ch stub rs :
  pulled (setup_events pem creds ch stub ++ loop_events str 0 rs
          ++ [StreamNext (length rs)]) = seq 0 (S (length rs)).
Proof.
  rewrite !pulled_app, pulled_loop, seq_S. reflexivity.
Qed.

Lemma stdout_stream pem creds ch stub rs :
  stdout_of (setup_events pem creds ch stub ++ loop_events str 0 rs
             ++ [StreamNext (length rs)]) = map (line str) rs.
Proof.
  rewrite !stdout_of_app, stdout_of_loop. simpl. apply app_nil_r.
Qed.

Lemma outcome_pulled w oe t :
  Outcome str w oe t ->
  exists k, pulled t = seq 0 k /\
            (length (stdout_of t) = k \/ S (length (stdout_of t)) = k).
Proof.
  intros Hout.
  destruct Hout as [ e G1 | pem e G1 G2 | pem creds e G1 G2 G3
                   | pem creds ch e G1 G2 G3 G4
                   | pem creds ch stub e G1 G2 G3 G4 G5
                   | pem creds ch stub s rs e Ho _
                   | pem creds ch stub s rs Ho _ ];
    try (exists 0; split; [reflexivity | left; reflexivity]).
  - exists (S (length rs)). rewrite pulled_stream, stdout_stream, length_map.
    split; [reflexivity | right; reflexivity].
  - exists (S (length rs)). rewrite pulled_stream, stdout_stream, length_map.
    split; [reflexivity | right; reflexivity].
Qed.

Lemma reached_pulled w c :
  Reached str w c ->
  exists k, pulled (trace c) = seq 0 k /\
            (length (stdout c) = k \/ S (length (stdout c)) = k).
Proof.
  intros R. unfold stdout.
  destruct R as [ | pem creds H1 H2 | pem creds ch H1 H2 H3 | pem creds ch stub H1 H2 H3 H4
                | pem creds ch stub s Ho | pem creds ch stub s rs Ho Hrs
                | pem creds ch stub s rs candle Ho Hrs Hc
                | t Hout | e t Hout | oe t Hout ];
    cbn [trace]; try (exists 0; split; [reflexivity | left; reflexivity]).
  - exists (length rs).
    rewrite pulled_app, pulled_loop, stdout_of_app, stdout_of_loop.
    simpl. rewrite length_map.
    split; [reflexivity | left; reflexivity].
  - exists (S (length rs)). rewrite pulled_stream, stdout_stream, length_map.
    split; [reflexivity | right; reflexivity].
  - apply (outcome_pulled w None t Hout).
  - apply (outcome_pulled w (Some e) t Hout).
  - destruct (outcome_pulled w oe t Hout) as (k & Hp & Hk).
    exists k. rewrite pulled_app, stdout_of_app.
    destruct oe; simpl; rewrite !app_nil_r; split; assumption.
Qed.

(** X7: at every moment of every run the stream has been pulled at the
    positions 0, 1, 2, ... in this order, each once, with no position
    skipped or pulled again; and the number of pulls is the number of lines
    printed or one more, so that a record is printed before the next one is
    asked for. *)
Theorem stream_pulled_in_sequence w n :
  pulled (trace (run str w n)) = seq 0 (length (pulled (trace (run str w n)))) /\
  length (stdout (run str w n)) <= length (pulled (trace (run str w n)))
    <= S (length (stdout (run str w n))).
Proof.
  destruct (reached_pulled w _ (reached_run w n)) as (k & Hp & Hk).
  rewrite Hp, length_seq. split; [reflexivity | lia].
Qed.

(** ** What the run depends on *)

Lemma step_same_answers w1 w2 c :
  same_answers w1 w2 -> Reached str w1 c -> step str w1 c = step str w2 c.
Proof.
  intros (Hf & Hs & Hc & Hb & Hr) R.
  destruct R as [ | pem creds H1 H2 | pem creds ch H1 H2 H3 | pem creds ch stub H1 H2 H3 H4
                | pem creds ch stub s (H1 & H2 & H3 & H4 & H5)
                | pem creds ch stub s rs Ho Hrs
                | pem creds ch stub s rs candle Ho Hrs Hcandle
                | t Hout | e t Hout | oe t Hout ];
    unfold step; cbn [control]; try reflexivity.
  - rewrite <- Hf.
    destruct (file_contents w1 PATH_TO_CERT_FILE) as [pem|e] eqn:E; [|reflexivity].
    rewrite <- (Hs pem eq_refl). reflexivity.
  - rewrite <- (Hc pem creds H1 H2). reflexivity.
  - rewrite <- (Hb pem creds ch H1 H2 H3). reflexivity.
  - rewrite <- (Hr pem creds ch stub H1 H2 H3 H4). reflexivity.
Qed.

(** X8: the run depends on the world through the answers to the calls the
    script makes and through nothing else: two worlds that answer these
    calls alike (they may differ on every other file, every other address,
    and on arguments the script never passes) give the same run, step by
    step, with the same trace. *)
Theorem run_depends_on_answers_only w1 w2 :
  same_answers w1 w2 ->
  forall n, run str w1 n = run str w2 n.
Proof.
  intros H n. induction n as [|n IH].
  - reflexivity.
  - rewrite !run_succ, <- IH.
    apply step_same_answers; [exact H | apply reached_run].
Qed.

(** ** The format of a line *)

Lemma string_length_append (a b : string) :
  String.length (a ++ b)%string = String.length a + String.length b.
Proof.
  induction a as [|x a IH]; simpl.
  - reflexivity.
  - rewrite IH. reflexivity.
Qed.

Lemma string_append_cancel_r (u v z : string) :
  (u ++ z)%string = (v ++ z)%string -> u = v.
Proof.
  revert v. induction u as [|x u IH]; intros [|y v] H; simpl in H.
  - reflexivity.
  - exfalso. apply (f_equal String.length) in H.
    simpl in H. rewrite string_length_append in H. lia.
  - exfalso. apply (f_equal String.length) in H.
    simpl in H. rewrite string_length_append in H. lia.
  - injection H as -> H. f_equal. apply IH. exact H.
Qed.

Lemma split_at_first_space (x y u v : string) :
  has_space x = false -> has_space y = false ->
  (x ++ " " ++ u)%string = (y ++ " " ++ v)%string ->
  x = y /\ u = v.
Proof.
  revert y. induction x as [|a x IH]; intros [|b y] Hx Hy H; simpl in *.
  - injection H as H. split; [reflexivity | exact H].
  - injection H as Hb _. subst b. discriminate Hy.
  - injection H as Ha _. subst a. discriminate Hx.
  - injection H as -> H.
    apply orb_false_iff in Hx. apply orb_false_iff in Hy.
    destruct (IH y (proj2 Hx) (proj2 Hy) H) as [-> ->].
    split; reflexivity.
Qed.

(** X9: a printed line can be read back.  When the texts of the two
    identifiers hold no space, two records with the same line have the same
    identifier text and the same sentiment text: the first space of the
    line is the separator. *)
Theorem line_determines_fields (a b : SentimentRecord Value) :
  has_space (str (id a)) = false ->
  has_space (str (id b)) = false ->
  line str a = line str b ->
  str (id a) = str (id b) /\ str (sentiment_avg a) = str (sentiment_avg b).
Proof.
  intros Ha Hb H. unfold line in H.
  destruct (split_at_first_space _ _ _ _ Ha Hb H) as [Hid Havg].
  split; [exact Hid|].
  apply (string_append_cancel_r _ _ newline). exact Havg.
Qed.

End RunFacts.

(** * The whole process *)

Section ScriptFacts.

Context {Value : Type} (str : Value -> string).

Implicit Types (itp : Interpreter) (w : World Value) (sc : Script Value).

Lemma script_steps_succ itp w n sc :
  script_steps str itp w (S n) sc =
  script_step str itp w (script_steps str itp w n sc).
Proof.
  revert sc. induction n as [|n IH]; intros sc.
  - reflexivity.
  - change (script_steps str itp w (S (S n)) sc)
      with (script_steps str itp w (S n) (script_step str itp w sc)).
    rewrite IH. reflexivity.
Qed.

(** Once the imports are done and the file is run as a script, the
    process is the run of [main]. *)
Lemma script_runs_main itp w files1 files2 files3 :
  module_name itp = "__main__" ->
  load_module itp (initial_sys_path itp ++ ["../../"]) "grpc" = Some files1 ->
  load_module itp (initial_sys_path itp ++ ["../../"]) "types_pb2_grpc" = Some files2 ->
  load_module itp (initial_sys_path itp ++ ["../../"]) "google.protobuf.empty_pb2"
    = Some files3 ->
  forall n,
    script_run str itp w (5 + n) =
    {| sys_path := initial_sys_path itp ++ ["../../"];
       at_line := InMain (run str w n);
       prelude := map FileRead files1 ++ map FileRead files2 ++ map FileRead files3 |}.
Proof.
  intros Hname H1 H2 H3 n. induction n as [|n IH].
  - unfold script_run. simpl.
    unfold script_step at 4. simpl.
    unfold script_step at 3, import_module. simpl. rewrite H1. simpl.
    unfold script_step at 2, import_module. simpl. rewrite H2. simpl.
    unfold script_step at 1, import_module. simpl. rewrite H3. simpl.
    unfold script_step. simpl. rewrite Hname. simpl.
    rewrite <- app_assoc. reflexivity.
  - replace (5 + S n) with (S (5 + n)) by lia.
    unfold script_run in *. rewrite script_steps_succ, IH.
    unfold script_step. simpl. rewrite run_succ. reflexivity.
Qed.






End ScriptFacts.

(** * The scenario of the specification, run *)

(** The run of the scenario: two lines, exit status 0. *)
Example scenario_output :
  let c := run shown (world_of (scenario [AAPL; MSFT] StopIteration)) 11 in
  stdout c = [("AAPL 0.42" ++ newline)%string; ("MSFT -0.15" ++ newline)%string] /\
  stderr c = [] /\ exit_status c = Some 0%Z.
Proof. vm_compute. repeat split. Qed.

(** The same stream failing after the first record: one line, the
    traceback, exit status 1. *)
Example scenario_failure_output :
  let c := run shown (world_of (scenario [AAPL] (Failure StreamError))) 9 in
  stdout c = [("AAPL 0.42" ++ newline)%string] /\
  stderr c = [traceback StreamError] /\ exit_status c = Some 1%Z.
Proof. vm_compute. repeat split. Qed.

Lemma stream_of_delivers {Value : Type} (rs : list (SentimentRecord Value))
    (fin : Pull Value) :
  delivers (stream_of rs fin) rs fin.
Proof.
  split.
  - intros k candle H. unfold stream_of. rewrite H. reflexivity.
  - unfold stream_of.
    assert (E : nth_error rs (length rs) = None)
      by (apply nth_error_None; apply Nat.le_refl).
    rewrite E. reflexivity.
Qed.

Lemma scenario_subscribes rs fin :
  subscribes (world_of (scenario rs fin)) (stream_of rs fin).
Proof.
  exists certificate, {| root_certificates := certificate |},
    {| target := SERVER_ADDRESS; credentials := {| root_certificates := certificate |} |},
    {| channel := {| target := SERVER_ADDRESS;
                     credentials := {| root_certificates := certificate |} |} |}.
  repeat split.
Qed.

Lemma other_site_subscribes rs fin :
  subscribes (world_of (other_site rs fin)) (stream_of rs fin).
Proof.
  exists [Byte.x41], {| root_certificates := [Byte.x41] |},
    {| target := SERVER_ADDRESS; credentials := {| root_certificates := [Byte.x41] |} |},
    {| channel := {| target := SERVER_ADDRESS;
                     credentials := {| root_certificates := [Byte.x41] |} |} |}.
  repeat split.
Qed.

(** C1 on the scenario. *)
Lemma clean_close_prints_every_record_witness :
  subscribes (world_of (scenario [AAPL; MSFT] StopIteration))
    (stream_of [AAPL; MSFT] StopIteration) /\
  delivers (stream_of [AAPL; MSFT] StopIteration) [AAPL; MSFT] StopIteration /\
  exists n, forall m, n <= m ->
    stdout (run shown (world_of (scenario [AAPL; MSFT] StopIteration)) m) =
      [("AAPL 0.42" ++ newline)%string; ("MSFT -0.15" ++ newline)%string] /\
    length (stdout (run shown (world_of (scenario [AAPL; MSFT] StopIteration)) m)) = 2 /\
    stderr (run shown (world_of (scenario [AAPL; MSFT] StopIteration)) m) = [] /\
    exit_status (run shown (world_of (scenario [AAPL; MSFT] StopIteration)) m) = Some 0%Z.
Proof.
  split; [apply scenario_subscribes|].
  split; [apply stream_of_delivers|].
  exact (clean_close_prints_every_record shown
           (world_of (scenario [AAPL; MSFT] StopIteration))
           (stream_of [AAPL; MSFT] StopIteration) [AAPL; MSFT]
           (scenario_subscribes [AAPL; MSFT] StopIteration)
           (stream_of_delivers [AAPL; MSFT] StopIteration)).
Defined.

(** C2 on the scenario, the stream failing after the first of the two
    records. *)
Lemma stream_failure_prints_prefix_witness :
  subscribes (world_of (scenario [AAPL] (Failure StreamError)))
    (stream_of [AAPL] (Failure StreamError)) /\
  delivers (stream_of [AAPL] (Failure StreamError)) [AAPL] (Failure StreamError) /\
  exists n, forall m, n <= m ->
    stdout (run shown (world_of (scenario [AAPL] (Failure StreamError))) m) =
      [("AAPL 0.42" ++ newline)%string] /\
    exit_status (run shown (world_of (scenario [AAPL] (Failure StreamError))) m) = Some 1%Z /\
    count is_rpc_call (trace (run shown (world_of (scenario [AAPL] (Failure StreamError))) m)) = 1.
Proof.
  split; [apply scenario_subscribes|].
  split; [apply stream_of_delivers|].
  destruct (stream_failure_prints_prefix shown
              (world_of (scenario [AAPL] (Failure StreamError)))
              (stream_of [AAPL] (Failure StreamError)) [AAPL] StreamError
              (scenario_subscribes [AAPL] (Failure StreamError))
              (stream_of_delivers [AAPL] (Failure StreamError)))
    as [[n H] _].
  exists n. intros m Hm.
  destruct (H m Hm) as (H1 & _ & _ & H4 & _ & H6 & _).
  split; [exact H1|]. split; [exact H4|exact H6].
Defined.

(** C3 on the scenario: the first record, at the head of the loop. *)
Lemma record_prints_one_line_witness :
  let c := run shown (world_of (scenario [AAPL; MSFT] StopIteration)) 5 in
  control c = AtNext (stream_of [AAPL; MSFT] StopIteration) 0 /\
  stream_of [AAPL; MSFT] StopIteration 0 = Item AAPL /\
  stdout (steps shown (world_of (scenario [AAPL; MSFT] StopIteration)) 2 c) =
    stdout c ++ [("AAPL 0.42" ++ newline)%string] /\
  stderr (steps shown (world_of (scenario [AAPL; MSFT] StopIteration)) 2 c) = stderr c.
Proof.
  intros c.
  split; [reflexivity|]. split; [reflexivity|].
  destruct (record_prints_one_line shown
              (world_of (scenario [AAPL; MSFT] StopIteration)) c
              (stream_of [AAPL; MSFT] StopIteration) 0 AAPL eq_refl eq_refl)
    as (_ & _ & H3 & H4).
  split; [exact H3|exact H4].
Defined.

(** C4 on the scenario with a server that cannot be reached. *)
Lemma unreachable_address_fails_at_channel_witness :
  disk unreachable_server PATH_TO_CERT_FILE = Some certificate /\
  valid_certificate unreachable_server certificate = true /\
  reachable unreachable_server SERVER_ADDRESS = false /\
  forall m, count is_rpc_call (trace (run shown (world_of unreachable_server) m)) = 0.
Proof.
  split; [reflexivity|]. split; [reflexivity|]. split; [reflexivity|].
  intros m.
  destruct (unreachable_address_fails_at_channel shown unreachable_server certificate
              eq_refl eq_refl eq_refl) as (_ & _ & H & _).
  destruct (H m) as (_ & H2 & _). exact H2.
Defined.

(** C5 on the scenario without a certificate file and with an empty one. *)
Lemma bad_certificate_fails_before_channel_witness :
  (disk no_certificate PATH_TO_CERT_FILE = None /\
   loadCredentials no_certificate PATH_TO_CERT_FILE = Raise FileError /\
   forall m, count is_secure_channel (trace (run shown (world_of no_certificate) m)) = 0) /\
  (disk empty_certificate PATH_TO_CERT_FILE = Some [] /\
   loadCredentials empty_certificate PATH_TO_CERT_FILE = Raise CredentialFormatError /\
   forall m, count is_secure_channel (trace (run shown (world_of empty_certificate) m)) = 0).
Proof.
  split.
  - split; [reflexivity|].
    destruct (bad_certificate_fails_before_channel shown no_certificate
                (or_introl eq_refl)) as (H1 & H2 & _).
    split; [exact H1|exact H2].
  - split; [reflexivity|].
    destruct (bad_certificate_fails_before_channel shown empty_certificate
                (or_intror eq_refl)) as (H1 & H2 & _).
    split; [exact H1|exact H2].
Defined.

(** C8 on the scenario and on another site with another certificate. *)
Lemma runs_on_same_stream_agree_witness :
  exists n, forall m1 m2, n <= m1 -> n <= m2 ->
    stdout (run shown (world_of (scenario [AAPL; MSFT] StopIteration)) m1) =
    stdout (run shown (world_of (other_site [AAPL; MSFT] StopIteration)) m2).
Proof.
  destruct (runs_on_same_stream_agree shown
              (world_of (scenario [AAPL; MSFT] StopIteration))
              (world_of (other_site [AAPL; MSFT] StopIteration))
              (stream_of [AAPL; MSFT] StopIteration)
              (stream_of [AAPL; MSFT] StopIteration) [AAPL; MSFT]
              (scenario_subscribes [AAPL; MSFT] StopIteration)
              (stream_of_delivers [AAPL; MSFT] StopIteration)
              (other_site_subscribes [AAPL; MSFT] StopIteration)
              (stream_of_delivers [AAPL; MSFT] StopIteration))
    as (_ & _ & n & H).
  exists n. intros m1 m2 H1 H2.
  destruct (H m1 m2 H1 H2) as (_ & E & _). exact E.
Defined.

(** C10 on the scenario and on the same records with other fields set. *)
Lemma output_depends_on_two_fields_witness :
  Forall2 (fun a b : SentimentRecord string =>
             id a = id b /\ sentiment_avg a = sentiment_avg b)
    [AAPL; MSFT] [AAPL'; MSFT'] /\
  [AAPL; MSFT] <> [AAPL'; MSFT'] /\
  exists n, forall m1 m2, n <= m1 -> n <= m2 ->
    stdout (run shown (world_of (scenario [AAPL; MSFT] StopIteration)) m1) =
    stdout (run shown (world_of (scenario [AAPL'; MSFT'] StopIteration)) m2).
Proof.
  assert (H : Forall2 (fun a b : SentimentRecord string =>
                         id a = id b /\ sentiment_avg a = sentiment_avg b)
                [AAPL; MSFT] [AAPL'; MSFT']).
  { repeat constructor. }
  split; [exact H|]. split; [discriminate|].
  exact (output_depends_on_two_fields shown
           (world_of (scenario [AAPL; MSFT] StopIteration))
           (world_of (scenario [AAPL'; MSFT'] StopIteration))
           (stream_of [AAPL; MSFT] StopIteration)
           (stream_of [AAPL'; MSFT'] StopIteration)
           [AAPL; MSFT] [AAPL'; MSFT']
           (scenario_subscribes [AAPL; MSFT] StopIteration)
           (stream_of_delivers [AAPL; MSFT] StopIteration)
           (scenario_subscribes [AAPL'; MSFT'] StopIteration)
           (stream_of_delivers [AAPL'; MSFT'] StopIteration) H).
Defined.

(** * The whole run, on the scenario *)

Lemma endless_feed_subscribes : subscribes (world_of endless_feed) ticker.
Proof.
  exists certificate, {| root_certificates := certificate |},
    {| target := SERVER_ADDRESS; credentials := {| root_certificates := certificate |} |},
    {| channel := {| target := SERVER_ADDRESS;
                     credentials := {| root_certificates := certificate |} |} |}.
  repeat split.
Qed.

Lemma ticker_endless : endless ticker.
Proof.
  intros k. unfold ticker. destruct (Nat.even k).
  - exists AAPL. reflexivity.
  - exists MSFT. reflexivity.
Qed.

(** X1 on a feed that sends the two records in turn for ever. *)
Lemma endless_stream_never_ends_witness :
  subscribes (world_of endless_feed) ticker /\
  endless ticker /\
  forall n, exit_status (run shown (world_of endless_feed) n) = None.
Proof.
  split; [exact endless_feed_subscribes|].
  split; [exact ticker_endless|].
  intros n.
  destruct (endless_stream_never_ends shown (world_of endless_feed) ticker
              endless_feed_subscribes ticker_endless) as [H _].
  destruct (H n) as [_ E]. exact E.
Defined.

Lemma scenario_same_answers rs fin :
  same_answers (world_of (scenario rs fin)) (world_of (crowded_disk rs fin)).
Proof.
  repeat split.
Qed.

(** X8 on the scenario and on a deployment that differs from it on every
    other path and every other address. *)
Lemma run_depends_on_answers_only_witness :
  same_answers (world_of (scenario [AAPL; MSFT] StopIteration))
               (world_of (crowded_disk [AAPL; MSFT] StopIteration)) /\
  file_contents (world_of (scenario [AAPL; MSFT] StopIteration)) "./key.pem" <>
  file_contents (world_of (crowded_disk [AAPL; MSFT] StopIteration)) "./key.pem" /\
  forall n, run shown (world_of (scenario [AAPL; MSFT] StopIteration)) n =
            run shown (world_of (crowded_disk [AAPL; MSFT] StopIteration)) n.
Proof.
  split; [apply scenario_same_answers|].
  split; [discriminate|].
  exact (run_depends_on_answers_only shown
           (world_of (scenario [AAPL; MSFT] StopIteration))
           (world_of (crowded_disk [AAPL; MSFT] StopIteration))
           (scenario_same_answers [AAPL; MSFT] StopIteration)).
Defined.

(** X9 on two records that differ in their other fields only. *)
Lemma line_determines_fields_witness :
  has_space (shown (id AAPL)) = false /\
  line shown AAPL = line shown AAPL' /\
  shown (id AAPL) = shown (id AAPL') /\
  shown (sentiment_avg AAPL) = shown (sentiment_avg AAPL').
Proof.
  split; [reflexivity|]. split; [reflexivity|].
  exact (line_determines_fields shown AAPL AAPL' eq_refl eq_refl eq_refl).
Defined.

(** With a space in an identifier the line no longer tells the fields
    apart. *)
Example line_with_space_is_ambiguous :
  line shown {| id := "A B"; sentiment_avg := "1"; other_fields := [] |} =
  line shown {| id := "A"; sentiment_avg := "B 1"; other_fields := [] |}.
Proof. reflexivity. Qed.

(** * The whole process, on the scenario *)


(** The process of the scenario under that interpreter: the three module
    reads, then the run of [main] with its two lines and exit status 0. *)
Example scenario_script_output :
  let sc := script_run shown cpython
              (world_of (scenario [AAPL; MSFT] StopIteration)) 16 in
  at_line sc = InMain (run shown (world_of (scenario [AAPL; MSFT] StopIteration)) 11) /\
  stdout_of (script_trace sc) =
    [("AAPL 0.42" ++ newline)%string; ("MSFT -0.15" ++ newline)%string] /\
  prelude sc = [FileRead "site-packages/grpc"; FileRead "../../types_pb2_grpc.py";
                FileRead "site-packages/google.protobuf.empty_pb2"].
Proof.
  pose proof (script_runs_main shown cpython
                (world_of (scenario [AAPL; MSFT] StopIteration))
                ["site-packages/grpc"] ["../../types_pb2_grpc.py"]
                ["site-packages/google.protobuf.empty_pb2"]
                eq_refl eq_refl eq_refl eq_refl 11) as E.
  change (5 + 11) with 16 in E. intros sc. subst sc. rewrite E.
  split; [reflexivity|]. split; [|reflexivity].
  vm_compute. reflexivity.
Qed.
